(** * VaultService: vault lifecycle and lock state

    A shallow embedding of
    [packages/services/src/Domain/Vaults/VaultService.ts].

    The service owns one piece of mutable state, the lock map.  Everything
    else (key store, item index, synchronizer, use cases) is reached through
    constructor-injected interfaces; they are embedded as type classes over
    an abstract collaborator state [W], so every theorem holds for any
    implementation of the collaborators.

    An [async] method is embedded as one uninterrupted run: what other
    tasks may do to the collaborators while a method is suspended at an
    [await] is outside this development. *)

From Stdlib Require Import String List ZArith Permutation.
From stdpp Require Import base option list strings gmap.

Open Scope string_scope.
Open Scope list_scope.

(** ** Data model *)

Abbreviation Uuid := string (only parsing).
Abbreviation KeySystemIdentifier := string (only parsing).

(** Modelled from the spec: [KeySystemRootKeyStorageMode] of
    [@standardnotes/models] is imported by [VaultService.ts], not defined
    in it.  The spec lists the storage modes as Synced, Local and the other
    non-persistent modes; [Ephemeral] stands for the latter. *)
Inductive KeySystemRootKeyStorageMode := Synced | Local | Ephemeral.

(** Modelled from the spec: [KeySystemRootKeyPasswordType] of
    [@standardnotes/models]; the spec names the two password types. *)
Inductive KeySystemRootKeyPasswordType := Randomized | UserInputted.

#[global] Instance KeySystemRootKeyStorageMode_eq_dec : EqDecision KeySystemRootKeyStorageMode.
Proof. solve_decision. Defined.

#[global] Instance KeySystemRootKeyPasswordType_eq_dec : EqDecision KeySystemRootKeyPasswordType.
Proof. solve_decision. Defined.

(** The objects of [@standardnotes/models] and [@standardnotes/responses]
    that the service only passes around and never inspects. *)
Class Models := {
  KeySystemRootKeyInterface : Type;
  KeySystemItemsKeyInterface : Type;
  KeySystemRootKeyParamsInterface : Type;
  ClientDisplayableError : Type;
}.

(** [vault.sharing], present exactly on shared vault listings. *)
Record VaultListingSharingInfo := { sharedVaultUuid : Uuid }.

(** The fields of [VaultListingInterface] that the service reads. *)
Record VaultListingInterface `{Models} := {
  uuid : Uuid;
  systemIdentifier : KeySystemIdentifier;
  name : string;
  keyStorageMode : KeySystemRootKeyStorageMode;
  keyPasswordType : KeySystemRootKeyPasswordType;
  rootKeyParams : KeySystemRootKeyParamsInterface;
  sharing : option VaultListingSharingInfo;
}.

(** Modelled from the spec: [isSharedVaultListing()] is a method of the
    listing in [@standardnotes/models]; by the spec the optional sharing
    metadata tells a shared vault from a personal one. *)
Definition isSharedVaultListing `{Models} (vault : VaultListingInterface) : bool :=
  bool_decide (is_Some (sharing vault)).

(** The fields of [DecryptedItemInterface] that the service reads.
    [key_system_identifier] is [KeySystemIdentifier | undefined]. *)
Record DecryptedItemInterface := {
  item_uuid : Uuid;
  key_system_identifier : option KeySystemIdentifier;
}.

(** [ChangeVaultOptionsDTO]: the service reads [dto.vault] and tests
    [dto.newPasswordType] for truthiness (an object or [undefined]). *)
Record ChangeVaultOptionsDTO `{Models} := {
  dto_vault : VaultListingInterface;
  newPasswordType : option KeySystemRootKeyPasswordType;
  newStorageMode : option KeySystemRootKeyStorageMode;
}.

Inductive VaultServiceEvent := VaultRootKeyRotated | VaultUnlocked | VaultLocked.

(** ['locked' | 'unlocked'], the result type of [computeVaultLockState]. *)
Inductive LockState := locked | unlocked.

#[global] Instance LockState_eq_dec : EqDecision LockState.
Proof. solve_decision. Defined.

(** JavaScript truthiness of a [string | undefined] value: [undefined] and
    the empty string are falsy. *)
Definition truthy (s : option string) : bool :=
  match s with
  | None => false
  | Some EmptyString => false
  | Some (String _ _) => true
  end.

(** ** Collaborators *)

(** How a call into a collaborator ends: an awaited promise resolves with
    a value or rejects, a synchronous lookup returns or throws. *)
Inductive Settled (A : Type) :=
  | Resolved (a : A)
  | Rejected (reason : string).
Arguments Resolved {A} a.
Arguments Rejected {A} reason.

(** [EncryptionProviderInterface], with the key manager [encryption.keys]
    folded in.  The synchronous key-manager calls are total; the awaited
    [decryptErroredPayloads] may reject. *)
Class EncryptionProviderInterface `{Models} (W : Type) := {
  getPrimaryKeySystemRootKey : KeySystemIdentifier -> W -> option KeySystemRootKeyInterface;
  getPrimaryKeySystemItemsKey : KeySystemIdentifier -> W -> option KeySystemItemsKeyInterface;
  clearMemoryOfKeysRelatedToVault : VaultListingInterface -> W -> W;
  deriveUserInputtedKeySystemRootKey :
    KeySystemRootKeyParamsInterface -> string -> KeySystemRootKeyInterface;
  intakeNonPersistentKeySystemRootKey :
    KeySystemRootKeyInterface -> KeySystemRootKeyStorageMode -> W -> W;
  undoIntakeNonPersistentKeySystemRootKey : KeySystemIdentifier -> W -> W;
  decryptErroredPayloads : W -> Settled unit * W;
}.

(** [ItemManagerInterface]: [getItems(ContentType.VaultListing)] and
    [findSureItem], which throws when the item is not in the index. *)
Class ItemManagerInterface `{Models} (W : Type) := {
  getItems_VaultListing : W -> list VaultListingInterface;
  findSureItem : Uuid -> W -> Settled DecryptedItemInterface;
}.

(** [SyncServiceInterface] *)
Class SyncServiceInterface (W : Type) := {
  sync : W -> Settled unit * W;
}.

(** The [execute] methods of the use cases under [./UseCase/], each built
    from the collaborators of the service and therefore acting on the same
    collaborator state.  [DeleteVaultUseCase] resolves with a
    [ClientDisplayableError] or with nothing. *)
Class VaultUseCases `{Models} (W : Type) := {
  AddItemsToVaultUseCase_execute :
    VaultListingInterface -> list DecryptedItemInterface -> W -> Settled unit * W;
  RemoveItemFromVault_execute : DecryptedItemInterface -> W -> Settled unit * W;
  DeleteVaultUseCase_execute :
    VaultListingInterface -> W -> Settled (option ClientDisplayableError) * W;
  RotateVaultRootKeyUseCase_execute :
    VaultListingInterface -> option Uuid -> option string -> W -> Settled unit * W;
  ChangeVaultKeyOptionsUseCase_execute : ChangeVaultOptionsDTO -> W -> Settled unit * W;
}.

(** Every call that reaches a collaborator and may change its state is
    written to a journal, in the order of the calls. *)
Inductive Invocation `{Models} :=
  | call_AddItemsToVaultUseCase (vault : VaultListingInterface) (items : list DecryptedItemInterface)
  | call_RemoveItemFromVault (item : DecryptedItemInterface)
  | call_DeleteVaultUseCase (vault : VaultListingInterface)
  | call_RotateVaultRootKeyUseCase (vault : VaultListingInterface)
      (sharedVault : option Uuid) (userInputtedPassword : option string)
  | call_ChangeVaultKeyOptionsUseCase (dto : ChangeVaultOptionsDTO)
  | call_sync
  | call_clearMemoryOfKeysRelatedToVault (vault : VaultListingInterface)
  | call_intakeNonPersistentKeySystemRootKey
      (key : KeySystemRootKeyInterface) (mode : KeySystemRootKeyStorageMode)
  | call_undoIntakeNonPersistentKeySystemRootKey (id : KeySystemIdentifier)
  | call_decryptErroredPayloads.

(** ** The service state and its monad *)

(** What a method can throw: an [Error] built by the service itself
    ([throw new Error(message)]), or the failure of a collaborator, which
    the service never catches. *)
Inductive Exception :=
  | Error (message : string)
  | CollaboratorFailure (reason : string).

Inductive Completion (A : Type) :=
  | Return (a : A)
  | Throw (e : Exception).
Arguments Return {A} a.
Arguments Throw {A} e.

(** The private [lockMap], the state of the collaborators, the events
    handed to [notifyEvent]/[notifyEventSync], and the journal. *)
Record VaultService `{Models} (W : Type) := {
  lockMap : gmap Uuid bool;
  world : W;
  notified : list (VaultServiceEvent * VaultListingInterface);
  journal : list Invocation;
}.
Arguments lockMap {_ W} _.
Arguments world {_ W} _.
Arguments notified {_ W} _.
Arguments journal {_ W} _.

(** A method: run from a service state, it completes (returns or throws)
    and leaves a service state.  A throw keeps the effects made before it. *)
Definition Method `{Models} (W A : Type) : Type :=
  VaultService W -> Completion A * VaultService W.

Section Monad.
Context `{Models} {W : Type}.

Definition ret {A} (a : A) : Method W A := fun s => (Return a, s).

Definition throw {A} (e : Exception) : Method W A := fun s => (Throw e, s).

Definition bind {A B} (m : Method W A) (k : A -> Method W B) : Method W B :=
  fun s =>
    match m s with
    | (Return a, s') => k a s'
    | (Throw e, s') => (Throw e, s')
    end.

(** Read the service state, without effect. *)
Definition gets {A} (f : VaultService W -> A) : Method W A := fun s => (Return (f s), s).

(** Read from the collaborators, without effect. *)
Definition ask {A} (f : W -> A) : Method W A := gets (fun s => f (world s)).

(** [for (const x of l) { body(x) }] *)
Fixpoint forOf {A} (l : list A) (body : A -> Method W unit) : Method W unit :=
  match l with
  | [] => ret tt
  | x :: l' => bind (body x) (fun _ => forOf l' body)
  end.

(** [this.lockMap.set(key, value)] *)
Definition lockMap_set (key : Uuid) (value : bool) : Method W unit :=
  fun s =>
    (Return tt,
     {| lockMap := <[key := value]> (lockMap s); world := world s;
        notified := notified s; journal := journal s |}).

(** A total, state-changing call into a collaborator. *)
Definition perform (c : Invocation) (f : W -> W) : Method W unit :=
  fun s =>
    (Return tt,
     {| lockMap := lockMap s; world := f (world s);
        notified := notified s; journal := journal s ++ [c] |}).

(** An awaited call into a collaborator; a rejection is rethrown. *)
Definition await {A} (c : Invocation) (f : W -> Settled A * W) : Method W A :=
  fun s =>
    let (r, w) := f (world s) in
    let s' := {| lockMap := lockMap s; world := w;
                 notified := notified s; journal := journal s ++ [c] |} in
    match r with
    | Resolved a => (Return a, s')
    | Rejected reason => (Throw (CollaboratorFailure reason), s')
    end.

(** A synchronous lookup that may throw. *)
Definition lookupSure {A} (f : W -> Settled A) : Method W A :=
  fun s =>
    match f (world s) with
    | Resolved a => (Return a, s)
    | Rejected reason => (Throw (CollaboratorFailure reason), s)
    end.

(** Modelled from the spec: [notifyEvent] and [notifyEventSync] are
    inherited from [AbstractService]; the spec has them emit a lifecycle
    event carrying the affected vault listing.  The event is appended to
    [notified]. *)
Definition notifyEvent (e : VaultServiceEvent) (vault : VaultListingInterface)
  : Method W unit :=
  fun s =>
    (Return tt,
     {| lockMap := lockMap s; world := world s;
        notified := notified s ++ [(e, vault)]; journal := journal s |}).

Definition notifyEventSync := notifyEvent.
End Monad.

Notation "x <- m ;; k" := (bind m (fun x => k))
  (at level 100, m at next level, right associativity).
Notation "m ;;; k" := (bind m (fun _ => k))
  (at level 100, right associativity).

(** ** [Array.prototype.sort] with a comparator

    The sort is stable: of two elements that the comparator does not order,
    the one that came first stays first. *)
Section Sort.
Context {A : Type} (compareFn : A -> A -> Z).

Fixpoint sort_insert (x : A) (l : list A) : list A :=
  match l with
  | [] => [x]
  | y :: l' => if (compareFn x y <=? 0)%Z then x :: l else y :: sort_insert x l'
  end.

Definition sort (l : list A) : list A := foldr sort_insert [] l.
End Sort.

(** ** The service *)
Section VaultService.
Context `{Models} {W : Type}.
Context `{!EncryptionProviderInterface W, !ItemManagerInterface W,
          !SyncServiceInterface W, !VaultUseCases W}.

(** [String.prototype.localeCompare], a function of the host. *)
Variable localeCompare : string -> string -> Z.

Definition getVaults (w : W) : list VaultListingInterface :=
  sort (fun a b => localeCompare (name a) (name b)) (getItems_VaultListing w).

Definition isVaultLocked (s : VaultService W) (vault : VaultListingInterface) : bool :=
  bool_decide (lockMap s !! uuid vault = Some true).

Definition getLockedvaults (s : VaultService W) : list VaultListingInterface :=
  let vaults := getVaults (world s) in
  List.filter (fun vault => isVaultLocked s vault) vaults.

(** Modelled from the spec: [GetVaultUseCase] lives in [./UseCase/GetVault].
    By the spec, [getVault] returns the listing whose key-system identifier
    matches, or absent if none. *)
Definition GetVaultUseCase_execute (w : W) (keySystemIdentifier : KeySystemIdentifier)
  : option VaultListingInterface :=
  List.find (fun listing => bool_decide (systemIdentifier listing = keySystemIdentifier))
            (getItems_VaultListing w).

Definition getVault (w : W) (keySystemIdentifier : KeySystemIdentifier)
  : option VaultListingInterface :=
  GetVaultUseCase_execute w keySystemIdentifier.

Definition getSureVault (keySystemIdentifier : KeySystemIdentifier)
  : Method W VaultListingInterface :=
  vault <- ask (fun w => getVault w keySystemIdentifier) ;;
  match vault with
  | None => throw (Error "Vault not found")
  | Some vault => ret vault
  end.

Definition computeVaultLockState (w : W) (vault : VaultListingInterface) : LockState :=
  match getPrimaryKeySystemRootKey (systemIdentifier vault) w with
  | None => locked
  | Some _ =>
      match getPrimaryKeySystemItemsKey (systemIdentifier vault) w with
      | None => locked
      | Some _ => unlocked
      end
  end.

Definition isItemInVault (item : DecryptedItemInterface) : bool :=
  bool_decide (key_system_identifier item <> None).

Definition getItemVault (w : W) (item : DecryptedItemInterface)
  : option VaultListingInterface :=
  if negb (truthy (key_system_identifier item)) then None
  else
    match key_system_identifier item with
    | Some id => getVault w id
    | None => None
    end.

Definition removeItemFromVault (item : DecryptedItemInterface)
  : Method W DecryptedItemInterface :=
  vault <- ask (fun w => getItemVault w item) ;;
  match vault with
  | None => throw (Error "Item does not belong to any vault")
  | Some vault =>
      isLocked <- gets (fun s => isVaultLocked s vault) ;;
      if isLocked : bool then throw (Error "Attempting to remove item from locked vault")
      else
        await (call_RemoveItemFromVault item) (RemoveItemFromVault_execute item) ;;;
        lookupSure (findSureItem (item_uuid item))
  end.

Definition addItemToVault (vault : VaultListingInterface) (item : DecryptedItemInterface)
  : Method W DecryptedItemInterface :=
  isLocked <- gets (fun s => isVaultLocked s vault) ;;
  if isLocked : bool then throw (Error "Attempting to add item to locked vault")
  else
    current <- ask (fun w => getItemVault w item) ;;
    match current with
    | Some _ => removeItemFromVault item ;;; ret tt
    | None => ret tt
    end ;;;
    await (call_AddItemsToVaultUseCase vault [item])
          (AddItemsToVaultUseCase_execute vault [item]) ;;;
    lookupSure (findSureItem (item_uuid item)).

(** [isClientDisplayableError(error)] on the [ClientDisplayableError | void]
    that [DeleteVaultUseCase] resolves with. *)
Definition isClientDisplayableError (error : option ClientDisplayableError) : bool :=
  match error with Some _ => true | None => false end.

Definition deleteVault (vault : VaultListingInterface) : Method W bool :=
  if isSharedVaultListing vault
  then throw (Error "Shared vault must be deleted through SharedVaultService")
  else
    error <- await (call_DeleteVaultUseCase vault) (DeleteVaultUseCase_execute vault) ;;
    if isClientDisplayableError error then ret false
    else
      await call_sync sync ;;;
      ret true.

Definition rotateVaultRootKey (vault : VaultListingInterface) : Method W unit :=
  state <- ask (fun w => computeVaultLockState w vault) ;;
  if decide (state = locked) then throw (Error "Cannot rotate root key of locked vault")
  else
    let sharedVault :=
      if isSharedVaultListing vault then sharedVaultUuid <$> sharing vault else None in
    await (call_RotateVaultRootKeyUseCase vault sharedVault None)
          (RotateVaultRootKeyUseCase_execute vault sharedVault None) ;;;
    notifyEventSync VaultRootKeyRotated vault ;;;
    await call_sync sync.

Definition changeVaultOptions (dto : ChangeVaultOptionsDTO) : Method W unit :=
  isLocked <- gets (fun s => isVaultLocked s (dto_vault dto)) ;;
  if isLocked : bool
  then throw (Error "Attempting to change vault options on a locked vault")
  else
    await (call_ChangeVaultKeyOptionsUseCase dto) (ChangeVaultKeyOptionsUseCase_execute dto) ;;;
    match newPasswordType dto with
    | Some _ => notifyEventSync VaultRootKeyRotated (dto_vault dto)
    | None => ret tt
    end.

Definition lockNonPersistentVault (vault : VaultListingInterface) : Method W unit :=
  if decide (keyStorageMode vault = Synced)
  then throw (Error "Vault uses synced root key and cannot be locked")
  else
    perform (call_clearMemoryOfKeysRelatedToVault vault)
            (clearMemoryOfKeysRelatedToVault vault) ;;;
    lockMap_set (uuid vault) true ;;;
    notifyEventSync VaultLocked vault.

Definition unlockNonPersistentVault (vault : VaultListingInterface) (password : string)
  : Method W bool :=
  if decide (keyPasswordType vault <> UserInputted)
  then throw (Error "Vault uses randomized password and cannot be unlocked with user inputted password")
  else if decide (keyStorageMode vault = Synced)
  then throw (Error "Vault uses synced root key and cannot be unlocked with user inputted password")
  else
    let derivedRootKey :=
      deriveUserInputtedKeySystemRootKey (rootKeyParams vault) password in
    perform (call_intakeNonPersistentKeySystemRootKey derivedRootKey (keyStorageMode vault))
            (intakeNonPersistentKeySystemRootKey derivedRootKey (keyStorageMode vault)) ;;;
    await call_decryptErroredPayloads decryptErroredPayloads ;;;
    state <- ask (fun w => computeVaultLockState w vault) ;;
    if decide (state = locked)
    then
      perform (call_undoIntakeNonPersistentKeySystemRootKey (systemIdentifier vault))
              (undoIntakeNonPersistentKeySystemRootKey (systemIdentifier vault)) ;;;
      ret false
    else
      lockMap_set (uuid vault) false ;;;
      notifyEventSync VaultUnlocked vault ;;;
      ret true.

(** The body of the loop of [recomputeAllVaultsLockingState]. *)
Definition recomputeVaultLockingState (vault : VaultListingInterface) : Method W unit :=
  state <- ask (fun w => computeVaultLockState w vault) ;;
  let isLocked := bool_decide (state = locked) in
  cached <- gets (fun s => lockMap s !! uuid vault) ;;
  if decide (cached <> Some isLocked)
  then
    lockMap_set (uuid vault) isLocked ;;;
    if isLocked then notifyEvent VaultLocked vault
    else notifyEvent VaultUnlocked vault
  else ret tt.

Definition recomputeAllVaultsLockingState : Method W unit :=
  vaults <- ask getVaults ;;
  forOf vaults recomputeVaultLockingState.
End VaultService.

(** [rootKeyPresent(v)] and [itemsKeyPresent(v)]: presence of the keys of
    the vault's key-system identifier in the key store. *)
Definition rootKeyPresent `{Models} {W : Type} `{!EncryptionProviderInterface W}
    (w : W) (vault : VaultListingInterface) : bool :=
  bool_decide (is_Some (getPrimaryKeySystemRootKey (systemIdentifier vault) w)).

Definition itemsKeyPresent `{Models} {W : Type} `{!EncryptionProviderInterface W}
    (w : W) (vault : VaultListingInterface) : bool :=
  bool_decide (is_Some (getPrimaryKeySystemItemsKey (systemIdentifier vault) w)).

(** What one pass of [recomputeAllVaultsLockingState] over [vaults] writes
    into the lock map, vault by vault. *)
Definition recomputedLockMap `{Models} {W : Type} `{!EncryptionProviderInterface W}
    (w : W) (vaults : list VaultListingInterface) (locks : gmap Uuid bool) : gmap Uuid bool :=
  foldl (fun m vault => <[uuid vault := bool_decide (computeVaultLockState w vault = locked)]> m)
        locks vaults.

(** ** In-memory collaborators

    Modelled from the spec: the key store, the item index, the synchronizer
    and the use cases live outside [VaultService.ts].  This module is a
    small in-memory implementation of their interfaces, after the spec's
    description of each, on which the service can be run on concrete
    inputs. *)
Module InMemory.

Record RootKey := { rootKey_systemIdentifier : KeySystemIdentifier; secret : string }.

(** An items key, wrapped by the root key whose secret is [wrappingSecret]. *)
Record ItemsKey := { itemsKey_systemIdentifier : KeySystemIdentifier; wrappingSecret : string }.

Record RootKeyParams := { params_systemIdentifier : KeySystemIdentifier; seed : string }.

#[export] Instance models : Models := {|
  KeySystemRootKeyInterface := RootKey;
  KeySystemItemsKeyInterface := ItemsKey;
  KeySystemRootKeyParamsInterface := RootKeyParams;
  ClientDisplayableError := string;
|}.

(** The key store holds root keys and items keys by key-system
    identifier; [erroredPayloads] are the items keys that could not be
    decrypted so far; the item index holds vault listings and items. *)
Record World := {
  rootKeys : gmap KeySystemIdentifier RootKey;
  itemsKeys : gmap KeySystemIdentifier ItemsKey;
  erroredPayloads : list ItemsKey;
  listings : list VaultListingInterface;
  items : list DecryptedItemInterface;
}.

Definition withRootKeys (f : gmap KeySystemIdentifier RootKey -> gmap KeySystemIdentifier RootKey)
    (w : World) : World :=
  {| rootKeys := f (rootKeys w); itemsKeys := itemsKeys w;
     erroredPayloads := erroredPayloads w; listings := listings w; items := items w |}.

Definition withItems (f : list DecryptedItemInterface -> list DecryptedItemInterface)
    (w : World) : World :=
  {| rootKeys := rootKeys w; itemsKeys := itemsKeys w;
     erroredPayloads := erroredPayloads w; listings := listings w; items := f (items w) |}.

Definition derive (params : RootKeyParams) (password : string) : RootKey :=
  {| rootKey_systemIdentifier := params_systemIdentifier params;
     secret := String.append (seed params) password |}.

Definition clearKeys (vault : VaultListingInterface) (w : World) : World :=
  {| rootKeys := delete (systemIdentifier vault) (rootKeys w);
     itemsKeys := delete (systemIdentifier vault) (itemsKeys w);
     erroredPayloads := erroredPayloads w; listings := listings w; items := items w |}.

(** A payload decrypts when the store holds the root key that wraps it. *)
Definition decrypts (w : World) (payload : ItemsKey) : bool :=
  match rootKeys w !! itemsKey_systemIdentifier payload with
  | Some key => bool_decide (secret key = wrappingSecret payload)
  | None => false
  end.

Definition decryptErrored (w : World) : World :=
  {| rootKeys := rootKeys w;
     itemsKeys :=
       foldr (fun payload keys => <[itemsKey_systemIdentifier payload := payload]> keys)
             (itemsKeys w) (List.filter (decrypts w) (erroredPayloads w));
     erroredPayloads := List.filter (fun payload => negb (decrypts w payload)) (erroredPayloads w);
     listings := listings w; items := items w |}.

#[export] Instance encryption : EncryptionProviderInterface World := {|
  getPrimaryKeySystemRootKey id w := rootKeys w !! id;
  getPrimaryKeySystemItemsKey id w := itemsKeys w !! id;
  clearMemoryOfKeysRelatedToVault := clearKeys;
  deriveUserInputtedKeySystemRootKey := derive;
  intakeNonPersistentKeySystemRootKey key mode :=
    withRootKeys (insert (rootKey_systemIdentifier key) key);
  undoIntakeNonPersistentKeySystemRootKey id := withRootKeys (delete id);
  decryptErroredPayloads w := (Resolved tt, decryptErrored w);
|}.

#[export] Instance itemManager : ItemManagerInterface World := {|
  getItems_VaultListing := listings;
  findSureItem id w :=
    match List.find (fun item => bool_decide (item_uuid item = id)) (items w) with
    | Some item => Resolved item
    | None => Rejected "item not found"
    end;
|}.

#[export] Instance syncService : SyncServiceInterface World := {|
  sync w := (Resolved tt, w);
|}.

Definition setKeySystemIdentifier (ids : list Uuid) (value : option KeySystemIdentifier)
    (item : DecryptedItemInterface) : DecryptedItemInterface :=
  if bool_decide (item_uuid item ∈ ids)
  then {| item_uuid := item_uuid item; key_system_identifier := value |}
  else item.

Definition deleteListing (vault : VaultListingInterface) (w : World)
  : Settled (option string) * World :=
  if bool_decide (uuid vault ∈ uuid <$> listings w)
  then
    (Resolved None,
     {| rootKeys := delete (systemIdentifier vault) (rootKeys w);
        itemsKeys := delete (systemIdentifier vault) (itemsKeys w);
        erroredPayloads := erroredPayloads w;
        listings := List.filter (fun listing => negb (bool_decide (uuid listing = uuid vault)))
                                (listings w);
        items := items w |})
  else (Resolved (Some "vault not found"), w).

#[export] Instance useCases : VaultUseCases World := {|
  AddItemsToVaultUseCase_execute vault added w :=
    (Resolved tt,
     withItems (map (setKeySystemIdentifier (item_uuid <$> added) (Some (systemIdentifier vault)))) w);
  RemoveItemFromVault_execute item w :=
    (Resolved tt, withItems (map (setKeySystemIdentifier [item_uuid item] None)) w);
  DeleteVaultUseCase_execute := deleteListing;
  RotateVaultRootKeyUseCase_execute vault sharedVault password w := (Resolved tt, w);
  ChangeVaultKeyOptionsUseCase_execute dto w := (Resolved tt, w);
|}.

(** Code-point order stands in for [localeCompare]. *)
Definition compareNames (a b : string) : Z :=
  match String.compare a b with
  | Lt => (-1)%Z
  | Eq => 0%Z
  | Gt => 1%Z
  end.

(** *** Concrete inputs *)

Definition vaultWith (id ksi nm : string) (mode : KeySystemRootKeyStorageMode)
    (type : KeySystemRootKeyPasswordType) (shared : option VaultListingSharingInfo)
  : VaultListingInterface :=
  {| uuid := id; systemIdentifier := ksi; name := nm; keyStorageMode := mode;
     keyPasswordType := type;
     rootKeyParams := {| params_systemIdentifier := ksi; seed := "seed" |};
     sharing := shared |}.

Definition vaultA := vaultWith "uuid-a" "ksi-a" "A" Ephemeral UserInputted None.
Definition vaultB := vaultWith "uuid-b" "ksi-b" "B" Synced Randomized None.
Definition vaultShared :=
  vaultWith "uuid-s" "ksi-s" "S" Synced Randomized (Some {| sharedVaultUuid := "shared-1" |}).

Definition rootKeyA := derive (rootKeyParams vaultA) "correct horse".
Definition itemsKeyA :=
  {| itemsKey_systemIdentifier := "ksi-a"; wrappingSecret := secret rootKeyA |}.
Definition rootKeyB := {| rootKey_systemIdentifier := "ksi-b"; secret := "random" |}.
Definition itemsKeyB := {| itemsKey_systemIdentifier := "ksi-b"; wrappingSecret := "random" |}.

Definition note (ksi : option KeySystemIdentifier) : DecryptedItemInterface :=
  {| item_uuid := "note-1"; key_system_identifier := ksi |}.

(** Vault A is locked (its items key is still an errored payload), vault B
    has both keys. *)
Definition worldALocked : World :=
  {| rootKeys := {[ "ksi-b" := rootKeyB ]};
     itemsKeys := {[ "ksi-b" := itemsKeyB ]};
     erroredPayloads := [itemsKeyA];
     listings := [vaultB; vaultA];
     items := [note (Some "ksi-b")] |}.

(** Both vaults have both keys. *)
Definition worldUnlocked : World :=
  {| rootKeys := {[ "ksi-a" := rootKeyA; "ksi-b" := rootKeyB ]};
     itemsKeys := {[ "ksi-a" := itemsKeyA; "ksi-b" := itemsKeyB ]};
     erroredPayloads := [];
     listings := [vaultB; vaultA];
     items := [note (Some "ksi-b")] |}.

(** An item that names a key system of which the index has no listing. *)
Definition worldNoListings : World :=
  {| rootKeys := ∅; itemsKeys := ∅; erroredPayloads := [];
     listings := []; items := [note (Some "ksi-a")] |}.

Definition service (locks : gmap Uuid bool) (w : World) : VaultService World :=
  {| lockMap := locks; world := w; notified := []; journal := [] |}.

End InMemory.

(** ** The rest of the service: renaming a vault, and the key manager

    The observer that the constructor registers on the item manager is not
    part of this model: what the methods are shown to do is what their own
    code does around their calls into the collaborators. *)

(** [MutatorClientInterface.changeItem] on a vault listing.  The mutation
    callback of [changeVaultNameAndDescription] assigns [mutator.name] and
    [mutator.description]; it is represented by the two values it
    assigns. *)
Class MutatorClientInterface `{Models} (W : Type) := {
  changeItem_VaultListing :
    VaultListingInterface -> string -> option string -> W ->
    Settled VaultListingInterface * W;
}.


Section VaultServiceRest.
Context `{Models} {W : Type}.
Context `{!EncryptionProviderInterface W, !SyncServiceInterface W,
          !MutatorClientInterface W}.



(** The event that one turn of the loop of [recomputeAllVaultsLockingState]
    emits for [vault] when the lock map is [locks]: none when the cached
    flag already is the computed one. *)
Definition lockTransition (locks : gmap Uuid bool) (w : W) (vault : VaultListingInterface)
  : list (VaultServiceEvent * VaultListingInterface) :=
  let isLocked := bool_decide (computeVaultLockState w vault = locked) in
  if decide (locks !! uuid vault <> Some isLocked)
  then [(if isLocked then VaultLocked else VaultUnlocked, vault)]
  else [].
End VaultServiceRest.

(** The in-memory mutator renames the listing of the index that has the
    [uuid] of the given one.  The in-memory key store keeps one root key
    for a key-system identifier, so it meets the contract of the key
    manager. *)
Module InMemoryRest.
Import InMemory.

Definition rename (name : string) (listing : VaultListingInterface) : VaultListingInterface :=
  {| uuid := uuid listing; systemIdentifier := systemIdentifier listing; name := name;
     keyStorageMode := keyStorageMode listing; keyPasswordType := keyPasswordType listing;
     rootKeyParams := rootKeyParams listing; sharing := sharing listing |}.

Definition renameListing (vault : VaultListingInterface) (name : string) (w : World) : World :=
  {| rootKeys := rootKeys w; itemsKeys := itemsKeys w; erroredPayloads := erroredPayloads w;
     listings := map (fun listing => if bool_decide (uuid listing = uuid vault)
                                     then rename name listing else listing) (listings w);
     items := items w |}.

#[export] Instance mutator : MutatorClientInterface World := {|
  changeItem_VaultListing vault name description w :=
    (Resolved (rename name vault), renameListing vault name w);
|}.




End InMemoryRest.

(** * LocalServiceManager: the local server of the desktop application

    A shallow embedding of
    [packages/desktop/app/javascripts/Main/LocalServer/LocalServerManager.ts].

    The class parses the output of [docker compose ps], rewrites two
    downloaded configuration files, and keeps the data directory in the
    application store.  Its text processing works on the UTF-16 code units
    of JavaScript strings, which is how strings are represented here. *)
Module LocalServiceManager.

(** ** JavaScript strings *)

(** The code units of an ASCII literal of the source. *)
Definition units (literal : string) : list N :=
  map Ascii.N_of_ascii (String.list_ascii_of_string literal).

(** [LineTerminator] of ECMAScript: LF, CR, LS, PS.  The [.] of a regular
    expression without the [s] flag matches every code unit but these. *)
Definition isLineTerminator (c : N) : bool :=
  bool_decide (c ∈ [10; 13; 8232; 8233]%N).

(** [WhiteSpace] of ECMAScript: TAB, VT, FF, SP, NBSP, ZWNBSP and the
    space separators of Unicode. *)
Definition isWhiteSpace (c : N) : bool :=
  bool_decide (c ∈ [9; 11; 12; 32; 160; 65279; 5760; 8239; 8287; 12288]%N)
  || ((8192 <=? c)%N && (c <=? 8202)%N).

(** What [\s] matches and what [String.prototype.trim] strips. *)
Definition isSpace (c : N) : bool := isWhiteSpace c || isLineTerminator c.

Fixpoint trimStart (s : list N) : list N :=
  match s with
  | c :: s' => if isSpace c then trimStart s' else s
  | [] => []
  end.

Definition trimEnd (s : list N) : list N := rev (trimStart (rev s)).

(** [String.prototype.trim] *)
Definition trim (s : list N) : list N := trimEnd (trimStart s).

(** [s.split(separator)] for a separator of one code unit: the pieces
    between the separators, empty pieces included; the empty string gives
    one empty piece. *)
Fixpoint split (separator : N) (s : list N) : list (list N) :=
  match s with
  | [] => [[]]
  | c :: s' =>
      if (c =? separator)%N then [] :: split separator s'
      else
        match split separator s' with
        | piece :: pieces => (c :: piece) :: pieces
        | [] => [[c]]
        end
  end.

(** [s.split(/\s+/)]: the pieces between the maximal runs of [\s]; a run at
    the start or at the end gives an empty first or last piece.  [inRun]
    tells that the code unit before was part of a run. *)
Fixpoint splitSpacesFrom (inRun : bool) (s : list N) : list (list N) :=
  match s with
  | [] => [[]]
  | c :: s' =>
      if isSpace c then
        if inRun then splitSpacesFrom true s' else [] :: splitSpacesFrom true s'
      else
        match splitSpacesFrom false s' with
        | piece :: pieces => (c :: piece) :: pieces
        | [] => [[c]]
        end
  end.

Definition splitSpaces (s : list N) : list (list N) := splitSpacesFrom false s.

(** [pieces.join(separator)] for a separator of one code unit. *)
Fixpoint join (separator : N) (pieces : list (list N)) : list N :=
  match pieces with
  | [] => []
  | [piece] => piece
  | piece :: pieces' => piece ++ separator :: join separator pieces'
  end.

(** JavaScript truthiness of a [string | undefined] value. *)
Definition truthyString (s : option (list N)) : bool :=
  match s with
  | Some (_ :: _) => true
  | _ => false
  end.

(** ** [desktopServerStatus]: reading [docker compose ps] *)

(** ['on' | 'error' | 'warning' | 'off'], the result type of
    [desktopServerStatus]. *)
Inductive ServerStatus := on | error | warning | off.

(** The object [{ name, status }] built from a row by array destructuring:
    an element the row does not have is [undefined]. *)
Record ServiceStatus := { name : option (list N); status : option (list N) }.

(** The service statuses that [desktopServerStatus] reads off the output:
    the lines after the first, each trimmed and split at white space, those
    of exactly five parts kept. *)
Definition serviceStatuses (output : list N) : list ServiceStatus :=
  map (fun parts => {| name := parts !! 0%nat; status := parts !! 3%nat |})
    (List.filter (fun parts => (length parts =? 5)%nat)
       (map (fun line => splitSpaces (trim line))
          (drop 1 (split 10 output)))).

Definition isRunning (service : ServiceStatus) : bool :=
  bool_decide (status service = Some (units "running")).

(** The branches that follow the parse. *)
Definition statusOfOutput (output : list N) : ServerStatus :=
  let services := serviceStatuses output in
  if forallb isRunning services then on
  else if existsb isRunning services then error
  else off.

(** ** The rewriting of the downloaded files in [desktopServerInstall] *)

(** The regular expression of the replacement in [docker-compose.yml],
    flags [g] and [m], has three groups: [(MYSQL_(ROOT_)?PASSWORD=)],
    inside it [(ROOT_)?], and a last group of [.] repeated, followed by
    [$].  [mysqlPasswordPrefix] is the expression at the start of [s]: the
    text of the first group if it matches there.  The last group then runs
    to the end of the line. *)
Definition startsWith (prefix s : list N) : bool :=
  bool_decide (take (length prefix) s = prefix).

Definition mysqlPasswordPrefix (s : list N) : option (list N) :=
  if startsWith (units "MYSQL_ROOT_PASSWORD=") s then Some (units "MYSQL_ROOT_PASSWORD=")
  else if startsWith (units "MYSQL_PASSWORD=") s then Some (units "MYSQL_PASSWORD=")
  else None.

(** [contents.replace] with that expression and the replacement
    [`$1${dbPassword}`], for a [dbPassword] without [$], as the
    hexadecimal keys are (a digit after [$1] is text, the expression
    having three groups only): every
    match, taken from left to right, is replaced by its first group
    followed by [dbPassword].  [matched] counts the code units of the
    current match's first group still to be passed over, [inValue] tells
    that the scan is inside the rest of a match, which ends before the next
    line terminator. *)
Fixpoint replaceFrom (dbPassword : list N) (matched : nat) (inValue : bool) (s : list N)
  : list N :=
  match s with
  | [] => []
  | c :: s' =>
      match matched with
      | S matched' => replaceFrom dbPassword matched' inValue s'
      | O =>
          if inValue then
            if isLineTerminator c then c :: replaceFrom dbPassword 0 false s'
            else replaceFrom dbPassword 0 true s'
          else
            match mysqlPasswordPrefix s with
            | Some prefix =>
                prefix ++ dbPassword ++ replaceFrom dbPassword (length prefix - 1) true s'
            | None => c :: replaceFrom dbPassword 0 false s'
            end
      end
  end.

Definition replaceMysqlPasswords (dbPassword contents : list N) : list N :=
  replaceFrom dbPassword 0 false contents.

(** [[A-Z_]] *)
Definition isKeyChar (c : N) : bool := ((65 <=? c)%N && (c <=? 90)%N) || (c =? 95)%N.

Fixpoint keyPrefix (s : list N) : list N * list N :=
  match s with
  | c :: s' =>
      if isKeyChar c then let (key, rest) := keyPrefix s' in (c :: key, rest)
      else ([], s)
  | [] => ([], [])
  end.

(** [line.match] with the expression [^([A-Z_]+)=] followed by a group of
    [.] repeated and [$], without flags: the first group [keyMatch[1]] when
    the line matches, that is when a non-empty run of [[A-Z_]] at its start
    is followed by [=] and no line terminator comes after. *)
Definition keyMatch (line : list N) : option (list N) :=
  match keyPrefix line with
  | (c :: key, eq :: value) =>
      if (eq =? 61)%N && forallb (fun v => negb (isLineTerminator v)) value
      then Some (c :: key) else None
  | _ => None
  end.

(** The keys whose values [desktopServerInstall] replaces. *)
Definition secretKeys : list (list N) :=
  [units "AUTH_JWT_SECRET"; units "AUTH_SERVER_ENCRYPTION_SERVER_KEY";
   units "VALET_TOKEN_SECRET"; units "DB_PASSWORD"].

(** [buffer.toString('hex')]: two lower-case hexadecimal digits a byte. *)
Definition hexDigit (n : N) : N := if (n <? 10)%N then (48 + n)%N else (87 + n)%N.

Definition toHex (bytes : list Byte.byte) : list N :=
  flat_map (fun b => [hexDigit (Byte.to_N b / 16); hexDigit (Byte.to_N b mod 16)]) bytes.

(** ** The host *)

Inductive StoreKeys := FileBackupsLocation | DesktopServerDataLocation.

#[export] Instance StoreKeys_eq_dec : EqDecision StoreKeys.
Proof. solve_decision. Defined.

(** [CreateCommand(prompt)] *)
Record Command := CreateCommand { prompt : list N }.

(** What the class reaches outside itself, over a host state [D]: the
    command service, whose [runCommand] resolves with an object of which
    the class reads [output], the directory picker and [moveDirContents] of
    [FileUtils], [shell.openPath], [path.join], [Paths.documentsDir],
    [crypto.randomBytes] and the synchronous calls of [fs]. *)
Class DesktopHost (D : Type) := {
  runCommand : Command -> list N -> D -> Settled (list N) * D;
  openDirectoryPicker : D -> Settled (option (list N)) * D;
  moveDirContents : list N -> list N -> D -> Settled unit * D;
  shell_openPath : list N -> D -> D;
  path_join : list N -> list N -> list N;
  documentsDir : list N;
  randomBytes : nat -> D -> list Byte.byte * D;
  fs_existsSync : list N -> D -> bool;
  fs_mkdirSync : list N -> D -> Settled unit * D;
  fs_readFileSync : list N -> D -> Settled (list N);
  fs_writeFileSync : list N -> list N -> D -> Settled unit * D;
}.

(** The calls into the host that change something, in their order. *)
Inductive HostCall :=
  | ran (command : Command) (directory : list N)
  | picked
  | moved (oldPath newPath : list N)
  | opened (location : list N)
  | madeDirectory (directory : list N)
  | wrote (file contents : list N)
  | drewRandomBytes (length : nat).

(** [appState.store], a key-value store reached by [get] and [set], the
    state of the host, and the journal of the calls. *)
Record Desktop (D : Type) := {
  store : StoreKeys -> option (list N);
  host : D;
  calls : list HostCall;
}.
Arguments store {D} _.
Arguments host {D} _.
Arguments calls {D} _.

Definition Task (D A : Type) : Type := Desktop D -> Completion A * Desktop D.

Section Tasks.
Context {D : Type} `{!DesktopHost D}.

Definition pure {A} (a : A) : Task D A := fun s => (Return a, s).

Definition andThen {A B} (m : Task D A) (k : A -> Task D B) : Task D B :=
  fun s =>
    match m s with
    | (Return a, s') => k a s'
    | (Throw e, s') => (Throw e, s')
    end.

(** [try { m } catch (e) { handler(e) }] *)
Definition tryCatch {A} (m : Task D A) (handler : Exception -> Task D A) : Task D A :=
  fun s =>
    match m s with
    | (Return a, s') => (Return a, s')
    | (Throw e, s') => handler e s'
    end.

Definition observe {A} (f : Desktop D -> A) : Task D A := fun s => (Return (f s), s).

(** [this.appState.store.set(key, value)] *)
Definition store_set (key : StoreKeys) (value : list N) : Task D unit :=
  fun s =>
    (Return tt,
     {| store := fun k => if decide (k = key) then Some value else store s k;
        host := host s; calls := calls s |}).

(** A call into the host that may fail. *)
Definition call {A} (c : HostCall) (f : D -> Settled A * D) : Task D A :=
  fun s =>
    let (r, d) := f (host s) in
    let s' := {| store := store s; host := d; calls := calls s ++ [c] |} in
    match r with
    | Resolved a => (Return a, s')
    | Rejected reason => (Throw (CollaboratorFailure reason), s')
    end.

(** A call into the host that cannot fail. *)
Definition callTotal {A} (c : HostCall) (f : D -> A * D) : Task D A :=
  fun s =>
    let (a, d) := f (host s) in
    (Return a, {| store := store s; host := d; calls := calls s ++ [c] |}).

(** A synchronous read of the host that may throw. *)
Definition readSure {A} (f : D -> Settled A) : Task D A :=
  fun s =>
    match f (host s) with
    | Resolved a => (Return a, s)
    | Rejected reason => (Throw (CollaboratorFailure reason), s)
    end.

Fixpoint mapTask {A B} (f : A -> Task D B) (l : list A) : Task D (list B) :=
  match l with
  | [] => pure []
  | x :: l' => andThen (f x) (fun y => andThen (mapTask f l') (fun ys => pure (y :: ys)))
  end.
End Tasks.

Notation "'let*' x ':=' m 'in' k" := (andThen m (fun x => k))
  (at level 10, x name, m at level 100, k at level 200).
Notation "m '>>' k" := (andThen m (fun _ => k))
  (at level 100, k at level 200, right associativity).

(** ** The class *)
Section Manager.
Context {D : Type} `{!DesktopHost D}.

Definition getDocumentsDir : list N := documentsDir.

Definition getDefaultDataDirectory : list N := path_join getDocumentsDir (units "notes").

Definition desktopServerGetDataDirectory : Task D (list N) :=
  observe (fun s =>
    let persistedValue := store s DesktopServerDataLocation in
    match persistedValue with
    | Some value => value
    | None => getDefaultDataDirectory
    end).

Definition transferDataToNewLocation (oldPath newPath : list N) : Task D unit :=
  call (moved oldPath newPath) (moveDirContents oldPath newPath) >>
  store_set FileBackupsLocation newPath.

Definition desktopServerChangeDataDirectory : Task D (option (list N)) :=
  let* newPath := call picked openDirectoryPicker in
  match newPath with
  | Some (c :: path) =>
      let newPath := c :: path in
      let* oldPath := desktopServerGetDataDirectory in
      (if truthyString (Some oldPath)
       then transferDataToNewLocation oldPath newPath
       else store_set FileBackupsLocation newPath) >>
      pure (Some newPath)
  | _ => pure None
  end.

Definition desktopServerOpenDataDirectory : Task D unit :=
  let* location := desktopServerGetDataDirectory in
  callTotal (opened location) (fun d => (tt, shell_openPath location d)).

Definition run (line : string) (directory : list N) : Task D (list N) :=
  call (ran (CreateCommand (units line)) directory)
       (runCommand (CreateCommand (units line)) directory).

Definition desktopServerStop : Task D unit :=
  let* dataDir := desktopServerGetDataDirectory in
  run "docker compose down" dataDir >>
  pure tt.

Definition desktopServerRestart : Task D unit :=
  let* dataDir := desktopServerGetDataDirectory in
  run "docker compose down" dataDir >>
  run "docker compose up -d" dataDir >>
  pure tt.

Definition desktopServerStart : Task D unit :=
  let* notesDir := desktopServerGetDataDirectory in
  run "docker compose pull" notesDir >>
  run "docker compose up -d" notesDir >>
  pure tt.

Definition desktopServerStatus : Task D ServerStatus :=
  let* dataDir := desktopServerGetDataDirectory in
  tryCatch
    (let* output := run "docker compose ps" dataDir in
     pure (statusOfOutput output))
    (fun e => pure error).

Definition generateRandomKey (length : nat) : Task D (list N) :=
  let* bytes := callTotal (drewRandomBytes length) (randomBytes length) in
  pure (toHex bytes).

(** The callback that [desktopServerInstall] maps over the lines of the
    [.env] file. *)
Definition updateEnvLine (dbPassword line : list N) : Task D (list N) :=
  match keyMatch line with
  | Some key =>
      if bool_decide (key ∈ secretKeys) then
        if bool_decide (key = units "DB_PASSWORD")
        then pure (key ++ units "=" ++ dbPassword)
        else
          let keyLength := 32%nat in
          let* randomKey := generateRandomKey keyLength in
          pure (key ++ units "=" ++ randomKey)
      else pure line
  | None => pure line
  end.

Definition desktopServerInstall : Task D unit :=
  let* notesDir := desktopServerGetDataDirectory in
  let* present := observe (fun s => fs_existsSync notesDir (host s)) in
  (if negb present then call (madeDirectory notesDir) (fs_mkdirSync notesDir) else pure tt) >>
  run "curl -o localstack_bootstrap.sh https://raw.githubusercontent.com/standardnotes/server/main/docker/localstack_bootstrap.sh"
      notesDir >>
  run "chmod +x localstack_bootstrap.sh" notesDir >>
  run "curl -o docker-compose.yml https://raw.githubusercontent.com/standardnotes/server/main/docker-compose.example.yml"
      notesDir >>
  let dockerComposeFilePath := path_join notesDir (units "docker-compose.yml") in
  let* dockerComposeFileContents := readSure (fs_readFileSync dockerComposeFilePath) in
  let* dbPassword := generateRandomKey 32 in
  let updatedDockerComposeFileContents :=
    replaceMysqlPasswords dbPassword dockerComposeFileContents in
  call (wrote dockerComposeFilePath updatedDockerComposeFileContents)
       (fs_writeFileSync dockerComposeFilePath updatedDockerComposeFileContents) >>
  run "curl -o .env https://raw.githubusercontent.com/standardnotes/server/main/.env.sample"
      notesDir >>
  let envFilePath := path_join notesDir (units ".env") in
  let* envFileContents := readSure (fs_readFileSync envFilePath) in
  let* updatedLines := mapTask (updateEnvLine dbPassword) (split 10 envFileContents) in
  let updatedEnvFileContents := join 10 updatedLines in
  call (wrote envFilePath updatedEnvFileContents)
       (fs_writeFileSync envFilePath updatedEnvFileContents).
End Manager.

(** *** A host to run the class on

    Files are kept by path; a [curl -o] command downloads from [remote],
    the other commands print [composePs]; the directory picker answers
    [pick]; random bytes all have the value [seedByte]. *)
Record TestHost := {
  files : list (list N * list N);
  directories : list (list N);
  remote : list (list N * list N);
  composePs : Settled (list N);
  pick : option (list N);
  seedByte : Byte.byte;
}.

Definition lookupFile (path : list N) (entries : list (list N * list N)) : option (list N) :=
  snd <$> List.find (fun entry => bool_decide (fst entry = path)) entries.

Definition withFiles (f : list (list N * list N) -> list (list N * list N)) (d : TestHost)
  : TestHost :=
  {| files := f (files d); directories := directories d; remote := remote d;
     composePs := composePs d; pick := pick d; seedByte := seedByte d |}.

Definition slash (directory file : list N) : list N := directory ++ units "/" ++ file.

(** The file name of a [curl -o name url] command, if it is one. *)
Definition downloadTarget (command : Command) : option (list N) :=
  match splitSpaces (prompt command) with
  | curl :: o :: target :: _ =>
      if bool_decide (curl = units "curl") && bool_decide (o = units "-o")
      then Some target else None
  | _ => None
  end.

#[export] Instance testHost : DesktopHost TestHost := {|
  runCommand command directory d :=
    match downloadTarget command with
    | Some target =>
        match lookupFile target (remote d) with
        | Some contents =>
            (Resolved [], withFiles (cons (slash directory target, contents)) d)
        | None => (Rejected "download failed", d)
        end
    | None =>
        match composePs d with
        | Resolved output => (Resolved output, d)
        | Rejected reason => (Rejected reason, d)
        end
    end;
  openDirectoryPicker d := (Resolved (pick d), d);
  moveDirContents oldPath newPath d := (Resolved tt, d);
  shell_openPath location d := d;
  path_join := slash;
  documentsDir := units "/home/user/Documents";
  randomBytes length d := (repeat (seedByte d) length, d);
  fs_existsSync directory d := bool_decide (directory ∈ directories d);
  fs_mkdirSync directory d :=
    (Resolved tt,
     {| files := files d; directories := directory :: directories d; remote := remote d;
        composePs := composePs d; pick := pick d; seedByte := seedByte d |});
  fs_readFileSync path d :=
    match lookupFile path (files d) with
    | Some contents => Resolved contents
    | None => Rejected "no such file"
    end;
  fs_writeFileSync path contents d := (Resolved tt, withFiles (cons (path, contents)) d);
|}.

(** A line feed. *)
Definition LF : list N := [10%N].

Definition linesOf (lines : list string) : list N := join 10 (map units lines).

Definition hostWith (output : Settled (list N)) (picked : option (list N)) : TestHost :=
  {| files := []; directories := [];
     remote :=
       [(units "localstack_bootstrap.sh", units "#!/bin/sh");
        (units "docker-compose.yml",
         linesOf ["services:"; "  db:"; "    environment:";
                  "      - MYSQL_ROOT_PASSWORD=changeme123";
                  "      - MYSQL_PASSWORD=changeme123"; "      - MYSQL_USER=std_notes_user"]);
        (units ".env",
         linesOf ["LOG_LEVEL=info"; "DB_PASSWORD=changeme123"; "AUTH_JWT_SECRET=";
                  "PUBLIC_FILES_SERVER_URL=http://localhost:3125"])];
     composePs := output; pick := picked; seedByte := Byte.xab |}.

Definition desktop (persisted : option (list N)) (d : TestHost) : Desktop TestHost :=
  {| store := fun key => match key with
                         | DesktopServerDataLocation => persisted
                         | FileBackupsLocation => None
                         end;
     host := d; calls := [] |}.

End LocalServiceManager.

(** ** Notions used to state what LocalServiceManager does *)
Module LocalServiceManagerSpec.
Import LocalServiceManager.

(** A task keeps a key of the store when, however it ends, the store holds
    under that key what it held before. *)
Definition keeps {D A : Type} (key : StoreKeys) (m : Task D A) : Prop :=
  forall s, store (snd (m s)) key = store s key.

(** No line terminator among the code units. *)
Definition singleLine (s : list N) : Prop :=
  forall c, c ∈ s -> isLineTerminator c = false.

(** A code unit that is a decimal digit or one of [a] to [f]. *)
Definition isHexDigit (c : N) : bool :=
  ((48 <=? c)%N && (c <=? 57)%N) || ((97 <=? c)%N && (c <=? 102)%N).

(** How the lines of the [.env] file relate to the lines written in their
    place, [dbPassword] being the password drawn for the database, [d] the
    host when the first line is looked at and [d'] the host after the last:
    a line is kept, or it is the line of [DB_PASSWORD] and gets
    [dbPassword], or it is the line of one of the three other secrets and
    gets the hexadecimal text of 32 random bytes drawn from the host for
    that line. *)
Inductive updatedLines {D : Type} `{!DesktopHost D} (dbPassword : list N)
  : D -> list (list N) -> list (list N) -> D -> Prop :=
  | linesDone (d : D) : updatedLines dbPassword d [] [] d
  | lineKept (d d' : D) (line : list N) (lines lines' : list (list N)) :
      (forall key, keyMatch line = Some key -> key ∉ secretKeys) ->
      updatedLines dbPassword d lines lines' d' ->
      updatedLines dbPassword d (line :: lines) (line :: lines') d'
  | linePassword (d d' : D) (line : list N) (lines lines' : list (list N)) :
      keyMatch line = Some (units "DB_PASSWORD") ->
      updatedLines dbPassword d lines lines' d' ->
      updatedLines dbPassword d (line :: lines)
                   ((units "DB_PASSWORD=" ++ dbPassword) :: lines') d'
  | lineSecret (d d1 d' : D) (line key : list N) (bytes : list Byte.byte)
      (lines lines' : list (list N)) :
      keyMatch line = Some key ->
      key ∈ [units "AUTH_JWT_SECRET"; units "AUTH_SERVER_ENCRYPTION_SERVER_KEY";
             units "VALET_TOKEN_SECRET"] ->
      randomBytes 32 d = (bytes, d1) ->
      updatedLines dbPassword d1 lines lines' d' ->
      updatedLines dbPassword d (line :: lines)
                   ((key ++ units "=" ++ toHex bytes) :: lines') d'.

(** [method] runs the command [first] and then [docker compose up -d],
    both in the data directory, the second only once the first has
    resolved: a failure of the first is thrown and nothing else is run. *)
Definition runsThenUp {D : Type} `{!DesktopHost D} (method : Task D unit) (first : string)
  : Prop :=
  forall (s : Desktop D) (d1 : D),
    let dataDir := match store s DesktopServerDataLocation with
                   | Some value => value
                   | None => getDefaultDataDirectory
                   end in
    (forall reason,
       runCommand (CreateCommand (units first)) dataDir (host s) = (Rejected reason, d1) ->
       method s =
         (Throw (CollaboratorFailure reason),
          {| store := store s; host := d1;
             calls := calls s ++ [ran (CreateCommand (units first)) dataDir] |})) /\
    (forall output,
       runCommand (CreateCommand (units first)) dataDir (host s) = (Resolved output, d1) ->
       forall up d2,
         runCommand (CreateCommand (units "docker compose up -d")) dataDir d1 = (up, d2) ->
         method s =
           (match up with
            | Resolved _ => Return tt
            | Rejected reason => Throw (CollaboratorFailure reason)
            end,
            {| store := store s; host := d2;
               calls := calls s ++
                 [ran (CreateCommand (units first)) dataDir;
                  ran (CreateCommand (units "docker compose up -d")) dataDir] |})).

(** The files written, in their order, among the calls of a journal. *)
Definition written (journal : list HostCall) : list (list N * list N) :=
  omap (fun c => match c with wrote file contents => Some (file, contents) | _ => None end)
       journal.

(** The commands of [lines] are run in [directory] one after the other and
    each resolves, taking the host from [d] to [d']. *)
Fixpoint resolveAll {D : Type} `{!DesktopHost D} (directory : list N) (lines : list string)
    (d d' : D) : Prop :=
  match lines with
  | [] => d' = d
  | line :: rest =>
      exists output d1,
        runCommand (CreateCommand (units line)) directory d = (Resolved output, d1) /\
        resolveAll directory rest d1 d'
  end.

(** What a run of [desktopServerInstall] that returns has done between the
    state [s] it started from and the state [final] it ended in.  The data
    directory exists or was made; the bootstrap script and
    [docker-compose.yml] were downloaded; from the host [d3] reached then,
    the text [compose] of [docker-compose.yml] was read and 32 random bytes
    were drawn, whose hexadecimal text is the database password; the file
    was written back with its MySQL passwords replaced by that password;
    [.env] was downloaded, its text [env] read, and written back with its
    lines updated under that same password.  These two are the only files
    written, and the store is as it was. *)
Definition installed {D : Type} `{!DesktopHost D} (s final : Desktop D) : Prop :=
  let notesDir := match store s DesktopServerDataLocation with
                  | Some value => value
                  | None => getDefaultDataDirectory
                  end in
  let dockerComposeFilePath := path_join notesDir (units "docker-compose.yml") in
  let envFilePath := path_join notesDir (units ".env") in
  exists (d0 d3 d4 d5 d6 d7 : D) (compose env : list N) (bytes : list Byte.byte)
         (lines' : list (list N)) (new : list HostCall),
    (if fs_existsSync notesDir (host s) then d0 = host s
     else fs_mkdirSync notesDir (host s) = (Resolved tt, d0)) /\
    resolveAll notesDir
      ["curl -o localstack_bootstrap.sh https://raw.githubusercontent.com/standardnotes/server/main/docker/localstack_bootstrap.sh";
       "chmod +x localstack_bootstrap.sh";
       "curl -o docker-compose.yml https://raw.githubusercontent.com/standardnotes/server/main/docker-compose.example.yml"]
      d0 d3 /\
    fs_readFileSync dockerComposeFilePath d3 = Resolved compose /\
    randomBytes 32 d3 = (bytes, d4) /\
    fs_writeFileSync dockerComposeFilePath (replaceMysqlPasswords (toHex bytes) compose) d4
      = (Resolved tt, d5) /\
    resolveAll notesDir
      ["curl -o .env https://raw.githubusercontent.com/standardnotes/server/main/.env.sample"]
      d5 d6 /\
    fs_readFileSync envFilePath d6 = Resolved env /\
    updatedLines (toHex bytes) d6 (split 10 env) lines' d7 /\
    fs_writeFileSync envFilePath (join 10 lines') d7 = (Resolved tt, host final) /\
    store final = store s /\
    calls final = calls s ++ new /\
    written new =
      [(dockerComposeFilePath, replaceMysqlPasswords (toHex bytes) compose);
       (envFilePath, join 10 lines')].
End LocalServiceManagerSpec.

(** ** Properties *)

(** Unfolds the plumbing of [Method] and reads the fields of the states. *)
Ltac run :=
  unfold bind, ret, throw, ask, gets, perform, await, lookupSure, lockMap_set,
    notifyEventSync, notifyEvent;
  cbn [world lockMap notified journal fst snd].

(** The sort neither drops nor invents elements. *)
Lemma sort_insert_Permutation {A} (compareFn : A -> A -> Z) (x : A) (l : list A) :
  sort_insert compareFn x l ≡ₚ x :: l.
Proof.
  induction l as [|y l IH]; simpl; [reflexivity|].
  destruct (compareFn x y <=? 0)%Z; [reflexivity|].
  rewrite IH. apply Permutation_swap.
Qed.

Lemma sort_Permutation {A} (compareFn : A -> A -> Z) (l : list A) :
  sort compareFn l ≡ₚ l.
Proof.
  induction l as [|x l IH]; simpl; [reflexivity|].
  rewrite sort_insert_Permutation. now rewrite IH.
Qed.

Lemma truthy_false (s : option string) :
  truthy s = false <-> s = None \/ s = Some EmptyString.
Proof.
  destruct s as [[|c s]|]; simpl; split; intros Hs; auto;
    try discriminate; destruct Hs; discriminate.
Qed.

Section Properties.
Context `{Models} {W : Type}.
Context `{!EncryptionProviderInterface W, !ItemManagerInterface W,
          !SyncServiceInterface W, !VaultUseCases W}.

Lemma getVaults_Permutation (localeCompare : string -> string -> Z) (w : W) :
  getVaults localeCompare w ≡ₚ getItems_VaultListing w.
Proof. apply sort_Permutation. Qed.

Lemma computeVaultLockState_locked (w : W) (vault : VaultListingInterface) :
  computeVaultLockState w vault = locked <->
  getPrimaryKeySystemRootKey (systemIdentifier vault) w = None \/
  getPrimaryKeySystemItemsKey (systemIdentifier vault) w = None.
Proof.
  unfold computeVaultLockState.
  destruct (getPrimaryKeySystemRootKey _ w), (getPrimaryKeySystemItemsKey _ w);
    split; intros Hl; auto; try discriminate; destruct Hl; discriminate.
Qed.

Lemma computeVaultLockState_unlocked (w : W) (vault : VaultListingInterface) :
  computeVaultLockState w vault = unlocked <->
  is_Some (getPrimaryKeySystemRootKey (systemIdentifier vault) w) /\
  is_Some (getPrimaryKeySystemItemsKey (systemIdentifier vault) w).
Proof.
  unfold computeVaultLockState.
  destruct (getPrimaryKeySystemRootKey _ w), (getPrimaryKeySystemItemsKey _ w);
    split; intros Hu; eauto; try discriminate;
    destruct Hu as [[? ?] [? ?]]; discriminate.
Qed.

Lemma computeVaultLockState_presence (w : W) (vault : VaultListingInterface) :
  bool_decide (computeVaultLockState w vault = locked) =
  negb (rootKeyPresent w vault && itemsKeyPresent w vault).
Proof.
  unfold computeVaultLockState, rootKeyPresent, itemsKeyPresent.
  destruct (getPrimaryKeySystemRootKey _ w), (getPrimaryKeySystemItemsKey _ w);
    reflexivity.
Qed.

(** *** [computeVaultLockState] *)

(** C1: [computeVaultLockState] returns ['unlocked'] if and only if both
    the root key and the items key of the vault's key-system identifier
    are present in the key store; in every other case (root key absent,
    or root key present and items key absent) it returns ['locked']. *)
Theorem computeVaultLockState_unlocked_iff (w : W) (vault : VaultListingInterface) :
  (computeVaultLockState w vault = unlocked <->
     is_Some (getPrimaryKeySystemRootKey (systemIdentifier vault) w) /\
     is_Some (getPrimaryKeySystemItemsKey (systemIdentifier vault) w)) /\
  (computeVaultLockState w vault = locked <->
     getPrimaryKeySystemRootKey (systemIdentifier vault) w = None \/
     (is_Some (getPrimaryKeySystemRootKey (systemIdentifier vault) w) /\
      getPrimaryKeySystemItemsKey (systemIdentifier vault) w = None)).
Proof.
  split; [apply computeVaultLockState_unlocked|].
  rewrite computeVaultLockState_locked. split.
  - intros [Hroot|Hitems]; [now left|].
    destruct (getPrimaryKeySystemRootKey (systemIdentifier vault) w) as [rootKey|];
      [right; eauto | now left].
  - intros [Hroot|[_ Hitems]]; [now left | now right].
Qed.

(** *** Membership lookups *)

Lemma getVault_Some (w : W) (id : KeySystemIdentifier) (vault : VaultListingInterface) :
  getVault w id = Some vault ->
  vault ∈ getItems_VaultListing w /\ systemIdentifier vault = id.
Proof.
  unfold getVault, GetVaultUseCase_execute. intros Hfind.
  apply List.find_some in Hfind as [Hin Hid].
  split; [now apply list_elem_of_In | now apply bool_decide_eq_true in Hid].
Qed.

Lemma getVault_None (w : W) (id : KeySystemIdentifier) :
  getVault w id = None <->
  forall listing, listing ∈ getItems_VaultListing w -> systemIdentifier listing <> id.
Proof.
  unfold getVault, GetVaultUseCase_execute. split.
  - intros Hfind listing Hin%list_elem_of_In.
    pose proof (List.find_none _ _ Hfind listing Hin) as Hno.
    now apply bool_decide_eq_false in Hno.
  - intros Hall.
    destruct (List.find _ _) as [vault|] eqn:Hfind; [|reflexivity].
    apply List.find_some in Hfind as [Hin Hid].
    apply bool_decide_eq_true in Hid.
    now destruct (Hall vault (proj2 (list_elem_of_In _ _) Hin)).
Qed.

(** C5, as the code has it: [isItemInVault] returns true if and only if the
    item's [key_system_identifier] is set, whether or not a vault listing
    matches it.  [getItemVault] returns absent exactly when the item
    carries no key-system identifier, or an empty one, or no vault listing
    has that identifier; what it returns otherwise is a listing of the
    index with the item's identifier.  Both are functions of the item and
    of the index alone and leave no state behind. *)
Theorem isItemInVault_getItemVault (w : W) (item : DecryptedItemInterface) :
  (isItemInVault item = true <-> is_Some (key_system_identifier item)) /\
  (getItemVault w item = None <->
     key_system_identifier item = None \/
     key_system_identifier item = Some EmptyString \/
     forall listing, listing ∈ getItems_VaultListing w ->
                     key_system_identifier item <> Some (systemIdentifier listing)) /\
  (forall vault, getItemVault w item = Some vault ->
     vault ∈ getItems_VaultListing w /\
     key_system_identifier item = Some (systemIdentifier vault)).
Proof.
  unfold isItemInVault, getItemVault.
  destruct (key_system_identifier item) as [id|] eqn:Hid.
  - split; [|split].
    + rewrite bool_decide_eq_true. split; [eauto | discriminate].
    + destruct (truthy (Some id)) eqn:Ht; simpl.
      * rewrite getVault_None. split.
        -- intros Hall. right. right. intros listing Hin [= ->]. now apply (Hall listing).
        -- intros [?|[[= ->]|Hall]]; [discriminate | discriminate |].
           intros listing Hin Heq. apply (Hall listing Hin). now rewrite Heq.
      * apply truthy_false in Ht as [?|[= ->]]; [discriminate|]. split; auto.
    + destruct (truthy (Some id)); simpl; [|discriminate].
      intros vault [Hin <-]%getVault_Some. auto.
  - split; [|split].
    + split; [intros Hset%bool_decide_eq_true; congruence | intros [? ?]; discriminate].
    + simpl. split; auto.
    + simpl. discriminate.
Qed.

(** *** The lock map *)

Lemma getLockedvaults_locked (localeCompare : string -> string -> Z)
    (s : VaultService W) (vault : VaultListingInterface) :
  vault ∈ getLockedvaults localeCompare s <->
  vault ∈ getItems_VaultListing (world s) /\ isVaultLocked s vault = true.
Proof.
  unfold getLockedvaults. rewrite list_elem_of_In, List.filter_In, <- list_elem_of_In.
  now rewrite getVaults_Permutation.
Qed.

(** C9, as the code has it: the lock map is keyed by the listing's [uuid].
    A vault whose [uuid] has no entry in the lock map is reported unlocked
    by [isVaultLocked], and [getLockedvaults] does not return it. *)
Theorem isVaultLocked_absent_entry (localeCompare : string -> string -> Z)
    (s : VaultService W) (vault : VaultListingInterface) :
  lockMap s !! uuid vault = None ->
  isVaultLocked s vault = false /\ vault ∉ getLockedvaults localeCompare s.
Proof.
  intros Habsent.
  assert (isVaultLocked s vault = false) as Hunlocked.
  { unfold isVaultLocked. rewrite Habsent. now apply bool_decide_eq_false. }
  split; [exact Hunlocked|].
  rewrite getLockedvaults_locked. intros [_ Hlocked]. congruence.
Qed.

(** *** Locking and unlocking *)

(** C6: on a vault whose storage mode is [Synced], [lockNonPersistentVault]
    throws its error (the spec's [InvalidOperationError]) and leaves the
    whole service state as it was: lock map, key store, events and
    journal.  On any other storage mode it clears the vault's keys from
    the key store, sets the vault's lock-map entry to [true], and emits
    [VaultLocked]. *)
Theorem lockNonPersistentVault_outcome (s : VaultService W) (vault : VaultListingInterface) :
  (keyStorageMode vault = Synced ->
     lockNonPersistentVault vault s =
       (Throw (Error "Vault uses synced root key and cannot be locked"), s)) /\
  (keyStorageMode vault <> Synced ->
     lockNonPersistentVault vault s =
       (Return tt,
        {| lockMap := <[uuid vault := true]> (lockMap s);
           world := clearMemoryOfKeysRelatedToVault vault (world s);
           notified := notified s ++ [(VaultLocked, vault)];
           journal := journal s ++ [call_clearMemoryOfKeysRelatedToVault vault] |})).
Proof.
  unfold lockNonPersistentVault.
  split; intros Hmode; destruct (decide (keyStorageMode vault = Synced)); try contradiction;
    reflexivity.
Qed.

(** After [lockNonPersistentVault] has returned, [isVaultLocked] reports
    the vault locked, whatever the lock map held before. *)
Theorem lockNonPersistentVault_then_isVaultLocked
    (s : VaultService W) (vault : VaultListingInterface) :
  keyStorageMode vault <> Synced ->
  fst (lockNonPersistentVault vault s) = Return tt /\
  isVaultLocked (snd (lockNonPersistentVault vault s)) vault = true.
Proof.
  intros Hmode. unfold lockNonPersistentVault.
  destruct (decide (keyStorageMode vault = Synced)); [contradiction|].
  run. split; [reflexivity|].
  unfold isVaultLocked. cbn [lockMap]. now rewrite lookup_insert_eq.
Qed.

(** [unlockNonPersistentVault] refuses a vault whose password type is not
    [UserInputted], and one whose storage mode is [Synced], before it
    derives or intakes anything: the service state is as it was. *)
Theorem unlockNonPersistentVault_guards
    (s : VaultService W) (vault : VaultListingInterface) (password : string) :
  (keyPasswordType vault <> UserInputted ->
     unlockNonPersistentVault vault password s =
       (Throw (Error "Vault uses randomized password and cannot be unlocked with user inputted password"),
        s)) /\
  (keyPasswordType vault = UserInputted ->
   keyStorageMode vault = Synced ->
     unlockNonPersistentVault vault password s =
       (Throw (Error "Vault uses synced root key and cannot be unlocked with user inputted password"),
        s)).
Proof.
  unfold unlockNonPersistentVault. split.
  - intros Htype. now destruct (decide (keyPasswordType vault <> UserInputted)).
  - intros Htype Hmode.
    destruct (decide (keyPasswordType vault <> UserInputted)); [contradiction|].
    now destruct (decide (keyStorageMode vault = Synced)).
Qed.


(** *** Items and vaults *)

(** C8: [removeItemFromVault] first looks the item's vault up and throws
    ['Item does not belong to any vault'] (the spec's [NotInVaultError])
    when there is none; it throws ['Attempting to remove item from locked
    vault'] (the spec's [LockedVaultError]) when that vault is locked.  In
    both cases the service state is as it was.  Otherwise it runs the
    Remove use case and returns the item that [findSureItem] finds under
    the item's [uuid] once the use case has run. *)
Theorem removeItemFromVault_outcome (s : VaultService W) (item : DecryptedItemInterface) :
  (getItemVault (world s) item = None ->
     removeItemFromVault item s =
       (Throw (Error "Item does not belong to any vault"), s)) /\
  (forall vault, getItemVault (world s) item = Some vault ->
     (isVaultLocked s vault = true ->
        removeItemFromVault item s =
          (Throw (Error "Attempting to remove item from locked vault"), s)) /\
     (isVaultLocked s vault = false ->
        forall w1 refreshed,
          RemoveItemFromVault_execute item (world s) = (Resolved tt, w1) ->
          findSureItem (item_uuid item) w1 = Resolved refreshed ->
          removeItemFromVault item s =
            (Return refreshed,
             {| lockMap := lockMap s; world := w1; notified := notified s;
                journal := journal s ++ [call_RemoveItemFromVault item] |}))).
Proof.
  unfold removeItemFromVault, bind, ask, gets, throw. split.
  - intros ->. reflexivity.
  - intros vault ->. split.
    + intros ->. reflexivity.
    + intros -> w1 refreshed Hremove Hfind.
      unfold await, lookupSure. rewrite Hremove. simpl. now rewrite Hfind.
Qed.

(** C7: on a shared vault listing, [deleteVault] throws (the spec's
    [WrongVaultKindError]) with the service state as it was: no use case,
    no key store call and no synchronization took place.  Otherwise the
    Delete use case runs; when it resolves with a displayable error,
    [deleteVault] returns [false] and does not synchronize; when it
    resolves without one, [deleteVault] synchronizes and then returns
    [true]. *)
Theorem deleteVault_outcome (s : VaultService W) (vault : VaultListingInterface) :
  (isSharedVaultListing vault = true ->
     deleteVault vault s =
       (Throw (Error "Shared vault must be deleted through SharedVaultService"), s)) /\
  (isSharedVaultListing vault = false ->
     forall w1,
       (forall error,
          DeleteVaultUseCase_execute vault (world s) = (Resolved (Some error), w1) ->
          deleteVault vault s =
            (Return false,
             {| lockMap := lockMap s; world := w1; notified := notified s;
                journal := journal s ++ [call_DeleteVaultUseCase vault] |})) /\
       (DeleteVaultUseCase_execute vault (world s) = (Resolved None, w1) ->
        forall w2, sync w1 = (Resolved tt, w2) ->
          deleteVault vault s =
            (Return true,
             {| lockMap := lockMap s; world := w2; notified := notified s;
                journal := journal s ++ [call_DeleteVaultUseCase vault; call_sync] |}))).
Proof.
  unfold deleteVault. split.
  - intros ->. reflexivity.
  - intros -> w1. unfold bind, await. split.
    + intros error ->. reflexivity.
    + intros -> w2 Hsync. simpl. rewrite Hsync. simpl. now rewrite <- app_assoc.
Qed.

(** C4, as the code has it: on an unlocked target vault, [addItemToVault]
    runs [removeItemFromVault] on the item before the Add use case if and
    only if [getItemVault] finds a vault for the item, be it another vault
    or the target vault itself.  When the item has no vault, the Add use
    case is the first and only call.  When it has one, the removal
    workflow comes first: its own guard throws if that vault is locked,
    and otherwise the Remove use case is the first call made. *)
Theorem addItemToVault_removal
    (s : VaultService W) (vault : VaultListingInterface) (item : DecryptedItemInterface) :
  isVaultLocked s vault = false ->
  (getItemVault (world s) item = None ->
     addItemToVault vault item s =
       (await (call_AddItemsToVaultUseCase vault [item])
              (AddItemsToVaultUseCase_execute vault [item]) ;;;
        lookupSure (findSureItem (item_uuid item))) s /\
     journal (snd (addItemToVault vault item s)) =
       journal s ++ [call_AddItemsToVaultUseCase vault [item]]) /\
  (forall current, getItemVault (world s) item = Some current ->
     addItemToVault vault item s =
       (removeItemFromVault item ;;;
        await (call_AddItemsToVaultUseCase vault [item])
              (AddItemsToVaultUseCase_execute vault [item]) ;;;
        lookupSure (findSureItem (item_uuid item))) s /\
     (isVaultLocked s current = true ->
        addItemToVault vault item s =
          (Throw (Error "Attempting to remove item from locked vault"), s)) /\
     (isVaultLocked s current = false ->
        exists rest,
          journal (snd (addItemToVault vault item s)) =
            journal s ++ call_RemoveItemFromVault item :: rest)).
Proof.
  intros Hunlocked. unfold addItemToVault. run. rewrite Hunlocked. split.
  - intros ->. split; [reflexivity|].
    destruct (AddItemsToVaultUseCase_execute vault [item] (world s)) as [[[]|reason] w1];
      cbn [world journal snd]; [|reflexivity].
    now destruct (findSureItem (item_uuid item) w1).
  - intros current Hcurrent. rewrite Hcurrent. split; [|split].
    + now destruct (removeItemFromVault item s) as [[refreshed|e] s1].
    + intros Hlocked. unfold removeItemFromVault. run.
      now rewrite Hcurrent, Hlocked.
    + intros Hopen. unfold removeItemFromVault. run. rewrite Hcurrent, Hopen.
      destruct (RemoveItemFromVault_execute item (world s)) as [[[]|reason] w1];
        cbn [world journal snd]; [|now exists []].
      destruct (findSureItem (item_uuid item) w1) as [refreshed|reason];
        cbn [world journal snd]; [|now exists []].
      destruct (AddItemsToVaultUseCase_execute vault [item] w1) as [[[]|reason] w2];
        cbn [world journal snd];
        [destruct (findSureItem (item_uuid item) w2); cbn [world journal snd]|];
        rewrite <- app_assoc; eauto.
Qed.

(** C10: [rotateVaultRootKey] throws ['Cannot rotate root key of locked
    vault'] if and only if the root key or the items key of the vault is
    absent from the key store when it is called; the lock map plays no part.
    [addItemToVault] and [changeVaultOptions] throw their locked-vault
    error if and only if the lock map holds [true] for the vault's
    [uuid]; the key store plays no part. *)
Theorem rotateVaultRootKey_guard (s : VaultService W) (vault : VaultListingInterface) :
  (fst (rotateVaultRootKey vault s) = Throw (Error "Cannot rotate root key of locked vault") <->
     getPrimaryKeySystemRootKey (systemIdentifier vault) (world s) = None \/
     getPrimaryKeySystemItemsKey (systemIdentifier vault) (world s) = None) /\
  (forall item,
     fst (addItemToVault vault item s) = Throw (Error "Attempting to add item to locked vault") <->
     lockMap s !! uuid vault = Some true) /\
  (forall dto,
     fst (changeVaultOptions dto s) =
       Throw (Error "Attempting to change vault options on a locked vault") <->
     lockMap s !! uuid (dto_vault dto) = Some true).
Proof.
  split; [|split].
  - rewrite <- computeVaultLockState_locked. unfold rotateVaultRootKey. run.
    destruct (decide (computeVaultLockState (world s) vault = locked)) as [Hl|Hl];
      [now split|].
    split; [|contradiction]. intros Hthrow. exfalso.
    destruct (RotateVaultRootKeyUseCase_execute _ _ _ _) as [[[]|reason] w1];
      cbn [fst world] in Hthrow; [|discriminate].
    destruct (sync w1) as [[[]|reason] w2]; discriminate.
  - intros item. unfold addItemToVault, isVaultLocked. run.
    destruct (bool_decide (lockMap s !! uuid vault = Some true)) eqn:Hflag.
    + apply bool_decide_eq_true in Hflag. now split.
    + apply bool_decide_eq_false in Hflag. split; [|contradiction].
      intros Hthrow. exfalso.
      destruct (getItemVault (world s) item) as [current|].
      * unfold removeItemFromVault in Hthrow. revert Hthrow. run.
        destruct (getItemVault (world s) item) as [current'|]; [|discriminate].
        destruct (isVaultLocked s current'); [discriminate|].
        destruct (RemoveItemFromVault_execute item (world s)) as [[[]|reason] w1];
          cbn [fst world]; [|discriminate].
        destruct (findSureItem (item_uuid item) w1); cbn [fst world]; [|discriminate].
        destruct (AddItemsToVaultUseCase_execute vault [item] w1) as [[[]|reason] w2];
          cbn [fst world]; [|discriminate].
        destruct (findSureItem (item_uuid item) w2); discriminate.
      * revert Hthrow.
        destruct (AddItemsToVaultUseCase_execute vault [item] (world s)) as [[[]|reason] w2];
          cbn [fst world]; [|discriminate].
        destruct (findSureItem (item_uuid item) w2); discriminate.
  - intros dto. unfold changeVaultOptions, isVaultLocked. run.
    destruct (bool_decide (lockMap s !! uuid (dto_vault dto) = Some true)) eqn:Hflag.
    + apply bool_decide_eq_true in Hflag. now split.
    + apply bool_decide_eq_false in Hflag. split; [|contradiction].
      intros Hthrow. exfalso. revert Hthrow.
      destruct (ChangeVaultKeyOptionsUseCase_execute dto (world s)) as [[[]|reason] w1];
        cbn [fst world]; [|discriminate].
      destruct (newPasswordType dto); discriminate.
Qed.

(** *** Recomputing the lock state of all vaults *)

Lemma recomputeVaultLockingState_run (s : VaultService W) (vault : VaultListingInterface) :
  exists s',
    recomputeVaultLockingState vault s = (Return tt, s') /\
    world s' = world s /\ journal s' = journal s /\
    lockMap s' =
      <[uuid vault := bool_decide (computeVaultLockState (world s) vault = locked)]> (lockMap s).
Proof.
  unfold recomputeVaultLockingState. run.
  destruct (decide (lockMap s !! uuid vault <>
                    Some (bool_decide (computeVaultLockState (world s) vault = locked))))
    as [Hstale|Hfresh].
  - destruct (bool_decide (computeVaultLockState (world s) vault = locked));
      eexists; repeat split.
  - apply dec_stable in Hfresh. exists s. repeat split.
    symmetry. now apply insert_id.
Qed.

Lemma forOf_recomputeVaultLockingState (vaults : list VaultListingInterface) :
  forall s : VaultService W,
  exists s',
    forOf vaults recomputeVaultLockingState s = (Return tt, s') /\
    world s' = world s /\ journal s' = journal s /\
    lockMap s' = recomputedLockMap (world s) vaults (lockMap s).
Proof.
  induction vaults as [|vault vaults IH]; intros s; simpl.
  - exists s. repeat split.
  - destruct (recomputeVaultLockingState_run s vault) as (s1 & Hrun & Hw1 & Hj1 & Hl1).
    destruct (IH s1) as (s2 & Hrest & Hw2 & Hj2 & Hl2).
    exists s2. unfold bind. rewrite Hrun, Hrest. repeat split; congruence.
Qed.

Lemma recomputedLockMap_other (w : W) (vaults : list VaultListingInterface) (id : Uuid) :
  forall locks, id ∉ uuid <$> vaults -> recomputedLockMap w vaults locks !! id = locks !! id.
Proof.
  unfold recomputedLockMap.
  induction vaults as [|vault vaults IH]; intros locks Hid; simpl; [reflexivity|].
  rewrite fmap_cons, not_elem_of_cons in Hid. destruct Hid as [Hne Hid].
  rewrite IH by assumption. now apply lookup_insert_ne.
Qed.

Lemma recomputedLockMap_lookup (w : W) (vaults : list VaultListingInterface)
    (vault : VaultListingInterface) :
  forall locks,
    NoDup (uuid <$> vaults) -> vault ∈ vaults ->
    recomputedLockMap w vaults locks !! uuid vault =
      Some (bool_decide (computeVaultLockState w vault = locked)).
Proof.
  induction vaults as [|first vaults IH]; intros locks Hnodup Hin.
  - inversion Hin.
  - rewrite fmap_cons, NoDup_cons in Hnodup. destruct Hnodup as [Hfresh Hnodup].
    apply elem_of_cons in Hin as [->|Hin].
    + change (recomputedLockMap w (first :: vaults) locks)
        with (recomputedLockMap w vaults
                (<[uuid first := bool_decide (computeVaultLockState w first = locked)]> locks)).
      rewrite recomputedLockMap_other by assumption. apply lookup_insert_eq.
    + now apply IH.
Qed.

(** C2, as the code has it: after a pass of
    [recomputeAllVaultsLockingState], which always completes and leaves
    the key store as it is, [isVaultLocked] of every vault listing is the
    negation of the conjunction of root-key presence and items-key
    presence for the vault's key-system identifier: a vault is reported
    locked exactly when one of its two keys is missing.  Listings are
    told apart by their [uuid], the key of the lock map. *)
Theorem recomputeAllVaultsLockingState_cache (localeCompare : string -> string -> Z)
    (s : VaultService W) :
  NoDup (uuid <$> getItems_VaultListing (world s)) ->
  exists s',
    recomputeAllVaultsLockingState localeCompare s = (Return tt, s') /\
    world s' = world s /\
    forall vault, vault ∈ getVaults localeCompare (world s') ->
      isVaultLocked s' vault =
        negb (rootKeyPresent (world s') vault && itemsKeyPresent (world s') vault).
Proof.
  intros Hnodup. unfold recomputeAllVaultsLockingState. run.
  destruct (forOf_recomputeVaultLockingState (getVaults localeCompare (world s)) s)
    as (s' & Hrun & Hworld & _ & Hlocks).
  exists s'. split; [exact Hrun|]. split; [exact Hworld|].
  intros vault Hin. rewrite Hworld in *. unfold isVaultLocked.
  rewrite Hlocks, recomputedLockMap_lookup; [| |exact Hin].
  - rewrite <- computeVaultLockState_presence.
    destruct (bool_decide (computeVaultLockState (world s) vault = locked)).
    + now apply bool_decide_eq_true.
    + apply bool_decide_eq_false. discriminate.
  - now rewrite getVaults_Permutation.
Qed.
End Properties.

(** ** The service run on the in-memory collaborators *)
Module Scenarios.
Import InMemory.

(** C2, the claim as worded: with both keys of vault A in the key store,
    the pass completes and [isVaultLocked] is [false] while the
    conjunction of the two presences is [true]; the two are not equal. *)
Lemma recompute_flag_differs_from_key_presence :
  let run := recomputeAllVaultsLockingState compareNames (service ∅ worldUnlocked) in
  fst run = Return tt /\
  vaultA ∈ getVaults compareNames (world (snd run)) /\
  isVaultLocked (snd run) vaultA = false /\
  rootKeyPresent (world (snd run)) vaultA && itemsKeyPresent (world (snd run)) vaultA = true.
Proof.
  cbv zeta. split; [reflexivity|]. split; [|split; reflexivity].
  change (getVaults compareNames _) with [vaultA; vaultB]. apply list_elem_of_here.
Qed.

(** C2 on a concrete input: vault A lacks its keys, vault B has both. *)
Lemma recomputeAllVaultsLockingState_cache_witness :
  NoDup (uuid <$> getItems_VaultListing (world (service ∅ worldALocked))) /\
  exists s',
    recomputeAllVaultsLockingState compareNames (service ∅ worldALocked) = (Return tt, s') /\
    world s' = worldALocked /\
    forall vault, vault ∈ getVaults compareNames (world s') ->
      isVaultLocked s' vault =
        negb (rootKeyPresent (world s') vault && itemsKeyPresent (world s') vault).
Proof.
  assert (NoDup (uuid <$> getItems_VaultListing (world (service ∅ worldALocked)))) as Hnodup.
  { apply (bool_decide_unpack _). vm_compute. exact I. }
  split; [exact Hnodup|].
  exact (recomputeAllVaultsLockingState_cache compareNames (service ∅ worldALocked) Hnodup).
Defined.



(** C4, the claim as worded: the item already belongs to the target vault
    B, which is unlocked, and the Remove use case still runs on it before
    the Add use case. *)
Lemma addItemToVault_removes_from_target_vault :
  isVaultLocked (service ∅ worldUnlocked) vaultB = false /\
  getItemVault worldUnlocked (note (Some "ksi-b")) = Some vaultB /\
  journal (snd (addItemToVault vaultB (note (Some "ksi-b")) (service ∅ worldUnlocked))) =
    [call_RemoveItemFromVault (note (Some "ksi-b"));
     call_AddItemsToVaultUseCase vaultB [note (Some "ksi-b")]].
Proof. repeat split. Qed.

(** C4 on a concrete input: the item sits in vault B and is added to the
    unlocked vault A; the Remove use case is the first call. *)
Lemma addItemToVault_removal_witness :
  isVaultLocked (service ∅ worldUnlocked) vaultA = false /\
  exists rest,
    journal (snd (addItemToVault vaultA (note (Some "ksi-b")) (service ∅ worldUnlocked))) =
      call_RemoveItemFromVault (note (Some "ksi-b")) :: rest.
Proof.
  split; [reflexivity|].
  destruct (addItemToVault_removal (service ∅ worldUnlocked) vaultA (note (Some "ksi-b")))
    as [_ Hsome]; [reflexivity|].
  destruct (Hsome vaultB) as (_ & _ & Hopen); [reflexivity|].
  apply Hopen. reflexivity.
Defined.

(** C5, the claim as worded: the item carries a key-system identifier,
    the index holds no vault listing at all, and [isItemInVault] is
    [true]. *)
Lemma isItemInVault_without_listing :
  isItemInVault (note (Some "ksi-a")) = true /\
  getItems_VaultListing worldNoListings = [] /\
  getItemVault worldNoListings (note (Some "ksi-a")) = None.
Proof. repeat split. Qed.

(** C6 on concrete inputs: the synced vault B is refused, the ephemeral
    vault A ends with its lock-map entry set. *)
Lemma lockNonPersistentVault_outcome_witness :
  lockNonPersistentVault vaultB (service ∅ worldUnlocked) =
    (Throw (Error "Vault uses synced root key and cannot be locked"), service ∅ worldUnlocked) /\
  lockMap (snd (lockNonPersistentVault vaultA (service ∅ worldUnlocked))) !! "uuid-a"
    = Some true.
Proof.
  split.
  - apply (lockNonPersistentVault_outcome (service ∅ worldUnlocked) vaultB). reflexivity.
  - destruct (lockNonPersistentVault_outcome (service ∅ worldUnlocked) vaultA) as [_ Hlock].
    rewrite Hlock by discriminate. reflexivity.
Defined.

(** C7 on concrete inputs: a shared listing, a listing of the index, and a
    listing the index does not hold (the use case reports an error). *)
Lemma deleteVault_outcome_witness :
  deleteVault vaultShared (service ∅ worldUnlocked) =
    (Throw (Error "Shared vault must be deleted through SharedVaultService"),
     service ∅ worldUnlocked) /\
  fst (deleteVault vaultA (service ∅ worldUnlocked)) = Return true /\
  fst (deleteVault vaultA (service ∅ worldNoListings)) = Return false.
Proof.
  split; [|split].
  - apply (deleteVault_outcome (service ∅ worldUnlocked) vaultShared). reflexivity.
  - destruct (deleteVault_outcome (service ∅ worldUnlocked) vaultA) as [_ Hdelete].
    destruct (Hdelete eq_refl (snd (deleteListing vaultA worldUnlocked))) as [_ Hdone].
    now rewrite (Hdone eq_refl _ eq_refl).
  - destruct (deleteVault_outcome (service ∅ worldNoListings) vaultA) as [_ Hdelete].
    destruct (Hdelete eq_refl worldNoListings) as [Hfailed _].
    now rewrite (Hfailed "vault not found" eq_refl).
Defined.

(** C8 on concrete inputs: an item without vault, an item of a locked
    vault, and an item of an unlocked vault. *)
Lemma removeItemFromVault_outcome_witness :
  removeItemFromVault (note None) (service ∅ worldUnlocked) =
    (Throw (Error "Item does not belong to any vault"), service ∅ worldUnlocked) /\
  removeItemFromVault (note (Some "ksi-b")) (service {[ "uuid-b" := true ]} worldUnlocked) =
    (Throw (Error "Attempting to remove item from locked vault"),
     service {[ "uuid-b" := true ]} worldUnlocked) /\
  fst (removeItemFromVault (note (Some "ksi-b")) (service ∅ worldUnlocked)) =
    Return (note None).
Proof.
  split; [|split].
  - apply (removeItemFromVault_outcome (service ∅ worldUnlocked) (note None)). reflexivity.
  - destruct (removeItemFromVault_outcome (service {[ "uuid-b" := true ]} worldUnlocked)
                (note (Some "ksi-b"))) as [_ Hsome].
    destruct (Hsome vaultB eq_refl) as [Hlocked _]. apply Hlocked. reflexivity.
  - destruct (removeItemFromVault_outcome (service ∅ worldUnlocked) (note (Some "ksi-b")))
      as [_ Hsome].
    destruct (Hsome vaultB eq_refl) as [_ Hopen].
    rewrite (Hopen eq_refl
               (snd (RemoveItemFromVault_execute (note (Some "ksi-b")) worldUnlocked))
               (note None)) by reflexivity.
    reflexivity.
Defined.

(** C9, the claim as worded: the lock map has no entry under the
    key-system identifier of vault A, and yet [isVaultLocked] is [true]
    and [getLockedvaults] returns the vault: the entry that counts is the
    one under the listing's [uuid]. *)
Lemma isVaultLocked_reads_uuid_not_systemIdentifier :
  let s := service {[ "uuid-a" := true ]} worldUnlocked in
  lockMap s !! systemIdentifier vaultA = None /\
  isVaultLocked s vaultA = true /\
  getLockedvaults compareNames s = [vaultA].
Proof. repeat split. Qed.

(** C9 on a concrete input: the lock map has an entry for vault B only. *)
Lemma isVaultLocked_absent_entry_witness :
  let s := service {[ "uuid-b" := true ]} worldUnlocked in
  lockMap s !! uuid vaultA = None /\
  isVaultLocked s vaultA = false /\
  vaultA ∉ getLockedvaults compareNames s.
Proof.
  cbv zeta. split; [reflexivity|].
  apply (isVaultLocked_absent_entry compareNames). reflexivity.
Defined.

(** C10 on concrete inputs: the rotation goes through on a vault whose
    cached flag is [true], and is refused on one whose cached flag is
    [false]; [addItemToVault] does the opposite in both. *)
Example rotateVaultRootKey_ignores_lock_map :
  (let s := service {[ "uuid-a" := true ]} worldUnlocked in
   isVaultLocked s vaultA = true /\
   fst (rotateVaultRootKey vaultA s) = Return tt /\
   fst (addItemToVault vaultA (note None) s) =
     Throw (Error "Attempting to add item to locked vault")) /\
  (let s := service {[ "uuid-a" := false ]} worldALocked in
   isVaultLocked s vaultA = false /\
   fst (rotateVaultRootKey vaultA s) =
     Throw (Error "Cannot rotate root key of locked vault") /\
   fst (addItemToVault vaultA (note None) s) = Return (note (Some "ksi-a"))).
Proof. cbv zeta. repeat split. Qed.

(** Locking the ephemeral vault A, unlocked so far. *)
Lemma lockNonPersistentVault_then_isVaultLocked_witness :
  keyStorageMode vaultA <> Synced /\
  isVaultLocked (snd (lockNonPersistentVault vaultA (service ∅ worldUnlocked))) vaultA = true.
Proof.
  assert (keyStorageMode vaultA <> Synced) as Hmode by discriminate.
  split; [exact Hmode|].
  exact (proj2 (lockNonPersistentVault_then_isVaultLocked (service ∅ worldUnlocked) vaultA Hmode)).
Defined.

(** Vault B has a randomized password: no password unlocks it. *)
Lemma unlockNonPersistentVault_guards_witness :
  keyPasswordType vaultB <> UserInputted /\
  unlockNonPersistentVault vaultB "any" (service ∅ worldUnlocked) =
    (Throw (Error "Vault uses randomized password and cannot be unlocked with user inputted password"),
     service ∅ worldUnlocked).
Proof.
  assert (keyPasswordType vaultB <> UserInputted) as Htype by discriminate.
  split; [exact Htype|].
  exact (proj1 (unlockNonPersistentVault_guards (service ∅ worldUnlocked) vaultB "any") Htype).
Defined.
End Scenarios.

(** ** Further properties of the service *)

Section RecomputeProperties.
Context `{Models} {W : Type}.
Context `{!EncryptionProviderInterface W, !ItemManagerInterface W,
          !SyncServiceInterface W, !VaultUseCases W}.

(** One turn of the loop, with the events it emits. *)
Lemma recomputeVaultLockingState_events (s : VaultService W) (vault : VaultListingInterface) :
  recomputeVaultLockingState vault s =
    (Return tt,
     {| lockMap := <[uuid vault := bool_decide (computeVaultLockState (world s) vault = locked)]>
                     (lockMap s);
        world := world s;
        notified := notified s ++ lockTransition (lockMap s) (world s) vault;
        journal := journal s |}).
Proof.
  unfold recomputeVaultLockingState, lockTransition. run. cbv zeta.
  destruct (decide (lockMap s !! uuid vault <>
                    Some (bool_decide (computeVaultLockState (world s) vault = locked))))
    as [Hstale|Hfresh].
  - now destruct (bool_decide (computeVaultLockState (world s) vault = locked)).
  - apply dec_stable in Hfresh. rewrite insert_id by exact Hfresh.
    rewrite app_nil_r. now destruct s.
Qed.

Lemma lockTransition_insert_ne (locks : gmap Uuid bool) (w : W)
    (vault : VaultListingInterface) (id : Uuid) (flag : bool) :
  id <> uuid vault ->
  lockTransition (<[id := flag]> locks) w vault = lockTransition locks w vault.
Proof. intros Hne. unfold lockTransition. now rewrite lookup_insert_ne. Qed.

Lemma forOf_recompute_events (vaults : list VaultListingInterface) :
  forall s : VaultService W,
    NoDup (uuid <$> vaults) ->
    forOf vaults recomputeVaultLockingState s =
      (Return tt,
       {| lockMap := recomputedLockMap (world s) vaults (lockMap s);
          world := world s;
          notified := notified s ++ concat (map (lockTransition (lockMap s) (world s)) vaults);
          journal := journal s |}).
Proof.
  induction vaults as [|vault vaults IH]; intros s Hnodup.
  - simpl. rewrite app_nil_r. now destruct s.
  - rewrite fmap_cons, NoDup_cons in Hnodup. destruct Hnodup as [Hfresh Hnodup].
    cbn [forOf]. unfold bind at 1. rewrite recomputeVaultLockingState_events.
    rewrite IH by exact Hnodup. cbn [lockMap world notified journal map concat].
    rewrite <- app_assoc.
    rewrite (map_ext_in _ (lockTransition (lockMap s) (world s)) vaults); [reflexivity|].
    intros other Hin.
    apply lockTransition_insert_ne. intros Heq. apply Hfresh.
    rewrite Heq. apply list_elem_of_fmap_2. now apply list_elem_of_In.
Qed.

Lemma forOf_recompute_settled (vaults : list VaultListingInterface) (s : VaultService W) :
  (forall vault, vault ∈ vaults ->
     lockMap s !! uuid vault =
       Some (bool_decide (computeVaultLockState (world s) vault = locked))) ->
  forOf vaults recomputeVaultLockingState s = (Return tt, s).
Proof.
  induction vaults as [|vault vaults IH]; intros Hfresh; [reflexivity|].
  cbn [forOf]. unfold bind at 1. rewrite recomputeVaultLockingState_events.
  assert (lockTransition (lockMap s) (world s) vault = []) as ->.
  { unfold lockTransition. cbv zeta.
    destruct (decide _) as [Hstale|_]; [|reflexivity].
    destruct Hstale. apply Hfresh. apply list_elem_of_here. }
  rewrite insert_id by (apply Hfresh; apply list_elem_of_here).
  rewrite app_nil_r.
  replace {| lockMap := lockMap s; world := world s; notified := notified s;
             journal := journal s |} with s by now destruct s.
  apply IH. intros other Hin. apply Hfresh. now apply list_elem_of_further.
Qed.

Lemma getVaults_NoDup (localeCompare : string -> string -> Z) (w : W) :
  NoDup (uuid <$> getItems_VaultListing w) -> NoDup (uuid <$> getVaults localeCompare w).
Proof. intros Hnodup. now rewrite getVaults_Permutation. Qed.

Lemma recomputeAllVaultsLockingState_run (localeCompare : string -> string -> Z)
    (s : VaultService W) :
  NoDup (uuid <$> getItems_VaultListing (world s)) ->
  recomputeAllVaultsLockingState localeCompare s =
    (Return tt,
     {| lockMap := recomputedLockMap (world s) (getVaults localeCompare (world s)) (lockMap s);
        world := world s;
        notified := notified s ++
          concat (map (lockTransition (lockMap s) (world s)) (getVaults localeCompare (world s)));
        journal := journal s |}).
Proof.
  intros Hnodup. unfold recomputeAllVaultsLockingState. run.
  now rewrite forOf_recompute_events by now apply getVaults_NoDup.
Qed.

(** A pass of [recomputeAllVaultsLockingState] always completes, calls no
    collaborator (their state and the journal are as before), and leaves
    alone every lock-map entry whose key is not the [uuid] of a vault
    listing: entries of vaults that are gone are never removed. *)
Theorem recomputeAllVaultsLockingState_frame (localeCompare : string -> string -> Z)
    (s : VaultService W) :
  exists s',
    recomputeAllVaultsLockingState localeCompare s = (Return tt, s') /\
    world s' = world s /\ journal s' = journal s /\
    forall id, id ∉ uuid <$> getItems_VaultListing (world s) ->
               lockMap s' !! id = lockMap s !! id.
Proof.
  unfold recomputeAllVaultsLockingState. run.
  destruct (forOf_recomputeVaultLockingState (getVaults localeCompare (world s)) s)
    as (s' & Hrun & Hworld & Hjournal & Hlocks).
  exists s'. repeat split; try assumption.
  intros id Hid. rewrite Hlocks. apply recomputedLockMap_other.
  now rewrite getVaults_Permutation.
Qed.

(** With listings of distinct [uuid]s, a pass emits one event for each
    vault whose cached flag is not the computed lock state, [VaultLocked]
    or [VaultUnlocked] after the computed state, in the order of
    [getVaults], and no other event: a vault without entry gets an event,
    a vault whose flag is right gets none. *)
Theorem recomputeAllVaultsLockingState_events (localeCompare : string -> string -> Z)
    (s : VaultService W) :
  NoDup (uuid <$> getItems_VaultListing (world s)) ->
  notified (snd (recomputeAllVaultsLockingState localeCompare s)) =
    notified s ++
    concat (map (lockTransition (lockMap s) (world s)) (getVaults localeCompare (world s))).
Proof.
  intros Hnodup. now rewrite (recomputeAllVaultsLockingState_run localeCompare s Hnodup).
Qed.

(** With listings of distinct [uuid]s, a second pass right after a pass
    changes nothing: same lock map, no further event. *)
Theorem recomputeAllVaultsLockingState_idempotent (localeCompare : string -> string -> Z)
    (s : VaultService W) :
  NoDup (uuid <$> getItems_VaultListing (world s)) ->
  recomputeAllVaultsLockingState localeCompare
      (snd (recomputeAllVaultsLockingState localeCompare s)) =
    (Return tt, snd (recomputeAllVaultsLockingState localeCompare s)).
Proof.
  intros Hnodup. pose proof (getVaults_NoDup localeCompare _ Hnodup) as Hsorted.
  rewrite (recomputeAllVaultsLockingState_run localeCompare s Hnodup). cbn [snd].
  unfold recomputeAllVaultsLockingState. run.
  apply forOf_recompute_settled. cbn [lockMap world]. intros vault Hin.
  now apply recomputedLockMap_lookup.
Qed.

(** With listings of distinct [uuid]s, [getLockedvaults] after a pass
    returns exactly the listings that lack their root key or their items
    key, in the order of [getVaults]. *)
Theorem getLockedvaults_after_recompute (localeCompare : string -> string -> Z)
    (s : VaultService W) :
  NoDup (uuid <$> getItems_VaultListing (world s)) ->
  getLockedvaults localeCompare (snd (recomputeAllVaultsLockingState localeCompare s)) =
    List.filter (fun vault => negb (rootKeyPresent (world s) vault &&
                                    itemsKeyPresent (world s) vault))
                (getVaults localeCompare (world s)).
Proof.
  intros Hnodup. pose proof (getVaults_NoDup localeCompare _ Hnodup) as Hsorted.
  rewrite (recomputeAllVaultsLockingState_run localeCompare s Hnodup). cbn [snd].
  unfold getLockedvaults. cbn [world]. apply List.filter_ext_in.
  intros vault Hin%list_elem_of_In. unfold isVaultLocked. cbn [lockMap].
  rewrite recomputedLockMap_lookup by assumption.
  rewrite <- computeVaultLockState_presence.
  destruct (bool_decide (computeVaultLockState (world s) vault = locked)).
  - now apply bool_decide_eq_true.
  - apply bool_decide_eq_false. discriminate.
Qed.
End RecomputeProperties.

Section MethodProperties.
Context `{Models} {W : Type}.
Context `{!EncryptionProviderInterface W, !ItemManagerInterface W,
          !SyncServiceInterface W, !VaultUseCases W,
          !MutatorClientInterface W}.

(** The guards on the lock state come first and cost nothing: when
    [addItemToVault] or [changeVaultOptions] find the vault locked in the
    lock map, or [rotateVaultRootKey] finds a key missing, the method throws
    with the service state, collaborators included, as it was. *)
Theorem locked_vault_guards_no_effect (s : VaultService W) (vault : VaultListingInterface) :
  (isVaultLocked s vault = true ->
     (forall item,
        addItemToVault vault item s =
          (Throw (Error "Attempting to add item to locked vault"), s)) /\
     (forall dto, dto_vault dto = vault ->
        changeVaultOptions dto s =
          (Throw (Error "Attempting to change vault options on a locked vault"), s))) /\
  (computeVaultLockState (world s) vault = locked ->
     rotateVaultRootKey vault s =
       (Throw (Error "Cannot rotate root key of locked vault"), s)).
Proof.
  split.
  - intros Hlocked. split.
    + intros item. unfold addItemToVault. run. now rewrite Hlocked.
    + intros dto <-. unfold changeVaultOptions. run. now rewrite Hlocked.
  - intros Hlocked. unfold rotateVaultRootKey. run. rewrite Hlocked.
    now destruct (decide (locked = locked)).
Qed.

(** On a vault that has both keys, [rotateVaultRootKey] hands the Rotate
    use case the shared-vault uuid of a shared listing, none for a personal
    one, and never a password.  If the use case rejects, no event is emitted
    and nothing is synchronized.  If it resolves, [VaultRootKeyRotated] is
    emitted and the synchronization follows; the event stays emitted when
    the synchronization then rejects and the method throws. *)
Theorem rotateVaultRootKey_outcome (s : VaultService W) (vault : VaultListingInterface) :
  computeVaultLockState (world s) vault = unlocked ->
  let sharedVault := sharedVaultUuid <$> sharing vault in
  forall w1,
    (forall reason,
       RotateVaultRootKeyUseCase_execute vault sharedVault None (world s)
         = (Rejected reason, w1) ->
       rotateVaultRootKey vault s =
         (Throw (CollaboratorFailure reason),
          {| lockMap := lockMap s; world := w1; notified := notified s;
             journal := journal s ++ [call_RotateVaultRootKeyUseCase vault sharedVault None] |})) /\
    (RotateVaultRootKeyUseCase_execute vault sharedVault None (world s) = (Resolved tt, w1) ->
     forall synced w2, sync w1 = (synced, w2) ->
       rotateVaultRootKey vault s =
         (match synced with
          | Resolved _ => Return tt
          | Rejected reason => Throw (CollaboratorFailure reason)
          end,
          {| lockMap := lockMap s; world := w2;
             notified := notified s ++ [(VaultRootKeyRotated, vault)];
             journal := journal s ++
               [call_RotateVaultRootKeyUseCase vault sharedVault None; call_sync] |})).
Proof.
  intros Hunlocked sharedVault w1.
  assert ((if isSharedVaultListing vault then sharedVaultUuid <$> sharing vault else None)
          = sharedVault) as Hshared.
  { unfold isSharedVaultListing, sharedVault. now destruct (sharing vault). }
  unfold rotateVaultRootKey. run. rewrite Hunlocked.
  destruct (decide (unlocked = locked)); [discriminate|]. cbv zeta. rewrite Hshared.
  split.
  - intros reason ->. reflexivity.
  - intros -> synced w2 Hsync. cbn [world]. rewrite Hsync.
    cbn [lockMap notified journal]. rewrite <- app_assoc.
    now destruct synced as [[]|reason].
Qed.



(** Whenever [getItemVault] finds a vault for an item, [isItemInVault]
    answers true for it: the two lookups never disagree in that
    direction. *)
Theorem getItemVault_isItemInVault (w : W) (item : DecryptedItemInterface)
    (vault : VaultListingInterface) :
  getItemVault w item = Some vault -> isItemInVault item = true.
Proof.
  unfold getItemVault, isItemInVault. intros Hfound.
  destruct (key_system_identifier item) as [id|]; [|discriminate].
  now apply bool_decide_eq_true.
Qed.
End MethodProperties.

(** * Properties of LocalServiceManager *)
Module LocalServiceManagerProperties.
Import LocalServiceManager LocalServiceManagerSpec.

(** ** Splitting and joining *)

Lemma split_cons (separator : N) (s : list N) :
  exists piece pieces, split separator s = piece :: pieces.
Proof.
  destruct s as [|c s]; simpl; [now eexists _, _|].
  destruct (c =? separator)%N; [now eexists _, _|].
  destruct (split separator s); now eexists _, _.
Qed.

Lemma join_split (separator : N) (s : list N) :
  join separator (split separator s) = s.
Proof.
  induction s as [|c s IH]; [reflexivity|]. simpl.
  destruct (split_cons separator s) as (piece & pieces & Hsplit).
  rewrite Hsplit in *.
  destruct (c =? separator)%N eqn:Hc.
  - apply N.eqb_eq in Hc as ->.
    change (join separator ([] :: piece :: pieces))
      with (separator :: join separator (piece :: pieces)).
    now rewrite IH.
  - rewrite <- IH. now destruct pieces.
Qed.

Lemma split_without_separator (separator : N) (s : list N) :
  separator ∉ s -> split separator s = [s].
Proof.
  induction s as [|c s IH]; intros Hfree; [reflexivity|]. simpl.
  apply not_elem_of_cons in Hfree as [Hne Hfree].
  destruct (N.eqb_spec c separator) as [->|_]; [contradiction|].
  now rewrite IH.
Qed.

Lemma split_first_line (separator : N) (first rest : list N) :
  separator ∉ first ->
  split separator (first ++ separator :: rest) = first :: split separator rest.
Proof.
  induction first as [|c first IH]; intros Hfree; simpl.
  - now rewrite N.eqb_refl.
  - apply not_elem_of_cons in Hfree as [Hne Hfree].
    destruct (N.eqb_spec c separator) as [->|_]; [contradiction|].
    now rewrite IH.
Qed.

(** ** [desktopServerStatus] *)

(** [statusOfOutput] by its three results: ['on'] exactly when every
    service row reads [running], which includes the case of no row at all;
    ['off'] exactly when there are rows and none reads [running];
    ['error'] exactly when some row reads [running] and some does not.
    ['warning'] is never the result. *)
Theorem statusOfOutput_cases (output : list N) :
  (statusOfOutput output = on <->
     forall service, service ∈ serviceStatuses output ->
                     status service = Some (units "running")) /\
  (statusOfOutput output = off <->
     serviceStatuses output <> [] /\
     forall service, service ∈ serviceStatuses output ->
                     status service <> Some (units "running")) /\
  (statusOfOutput output = error <->
     (exists service, service ∈ serviceStatuses output /\
                      status service = Some (units "running")) /\
     (exists service, service ∈ serviceStatuses output /\
                      status service <> Some (units "running"))) /\
  statusOfOutput output <> warning.
Proof.
  unfold statusOfOutput. cbv zeta.
  generalize (serviceStatuses output) as services. intros services.
  assert (forallb isRunning services = true <->
          forall service, service ∈ services -> status service = Some (units "running"))
    as Hall.
  { rewrite forallb_forall. unfold isRunning. split; intros Hrun service Hin.
    - apply list_elem_of_In, Hrun in Hin. now apply bool_decide_eq_true in Hin.
    - apply bool_decide_eq_true. apply Hrun. now apply list_elem_of_In. }
  assert (existsb isRunning services = true <->
          exists service, service ∈ services /\ status service = Some (units "running"))
    as Hsome.
  { rewrite existsb_exists. unfold isRunning. split; intros (service & Hin & Hrun).
    - apply bool_decide_eq_true in Hrun.
      exists service. split; [now apply list_elem_of_In | exact Hrun].
    - exists service. split; [now apply list_elem_of_In | now apply bool_decide_eq_true]. }
  assert (existsb isRunning services = false <->
          forall service, service ∈ services -> status service <> Some (units "running"))
    as Hnone.
  { rewrite <- not_true_iff_false, Hsome. split.
    - intros Hno service Hin Hrun. apply Hno. eauto.
    - intros Hno (service & Hin & Hrun). now apply (Hno service). }
  assert (forallb isRunning services = false <->
          exists service, service ∈ services /\ status service <> Some (units "running"))
    as Hnotall.
  { clear. induction services as [|service services IH]; simpl.
    - split; [discriminate | intros (? & Hin & _); inversion Hin].
    - rewrite andb_false_iff, IH. unfold isRunning at 1. rewrite bool_decide_eq_false.
      split.
      + intros [Hrun|(other & Hin & Hrun)].
        * exists service. split; [apply list_elem_of_here | exact Hrun].
        * exists other. split; [now apply list_elem_of_further | exact Hrun].
      + intros (other & Hin & Hrun). apply elem_of_cons in Hin as [->|Hin]; eauto. }
  destruct (forallb isRunning services) eqn:Hforall.
  - pose proof (proj1 Hall eq_refl) as Hevery. repeat split; try discriminate; auto.
    + intros [Hrows Hno]. destruct services as [|service services]; [contradiction|].
      destruct (Hno service); [apply list_elem_of_here|].
      apply Hevery, list_elem_of_here.
    + intros [_ (service & Hin & Hrun)]. destruct Hrun. now apply Hevery.
  - pose proof (proj1 Hnotall eq_refl) as (bad & Hbad & Hstopped).
    destruct (existsb isRunning services) eqn:Hexists.
    + pose proof (proj1 Hsome eq_refl) as Hrunning.
      repeat split; try discriminate; eauto.
      * intros Hevery. destruct Hstopped. now apply Hevery.
      * intros [_ Hno]. destruct Hrunning as (service & Hin & Hrun). now destruct (Hno service).
    + pose proof (proj1 Hnone eq_refl) as Hno.
      repeat split; try discriminate; eauto.
      * intros Hevery. destruct Hstopped. now apply Hevery.
      * intros ->. inversion Hbad.
      * intros [(service & Hin & Hrun) _]. now destruct (Hno service).
Qed.

Lemma statusOfOutput_never_warning (output : list N) : statusOfOutput output <> warning.
Proof.
  unfold statusOfOutput. cbv zeta.
  destruct (forallb _ _); [discriminate|]. now destruct (existsb _ _).
Qed.

(** The first line of the output is never read, and a single line is no
    row: an output without line feed, be it empty or [docker compose ps]'s
    heading alone because no container exists, is reported as ['on']. *)
Theorem statusOfOutput_single_line (output : list N) :
  10%N ∉ output -> serviceStatuses output = [] /\ statusOfOutput output = on.
Proof.
  intros Hline.
  assert (serviceStatuses output = []) as Hrows.
  { unfold serviceStatuses. now rewrite split_without_separator. }
  split; [exact Hrows|]. unfold statusOfOutput. now rewrite Hrows.
Qed.

(** The result does not depend on the first line of the output: two
    outputs that differ in their first line only get the same status. *)
Theorem statusOfOutput_ignores_first_line (first first' rest : list N) :
  10%N ∉ first -> 10%N ∉ first' ->
  statusOfOutput (first ++ 10%N :: rest) = statusOfOutput (first' ++ 10%N :: rest).
Proof.
  intros Hfirst Hfirst'. unfold statusOfOutput, serviceStatuses.
  now rewrite !split_first_line by assumption.
Qed.

Section Host.
Context {D : Type} `{!DesktopHost D}.

(** [desktopServerStatus] never throws and never answers ['warning']: when
    the [docker compose ps] command fails the answer is ['error'], and
    otherwise it is the status read off the command's output. *)
Theorem desktopServerStatus_outcome (s : Desktop D) :
  let dataDir := match store s DesktopServerDataLocation with
                 | Some value => value
                 | None => getDefaultDataDirectory
                 end in
  let command := CreateCommand (units "docker compose ps") in
  exists result,
    fst (desktopServerStatus s) = Return result /\
    result <> warning /\
    calls (snd (desktopServerStatus s)) = calls s ++ [ran command dataDir] /\
    match fst (runCommand command dataDir (host s)) with
    | Resolved output => result = statusOfOutput output
    | Rejected _ => result = error
    end.
Proof.
  cbv zeta. unfold desktopServerStatus, desktopServerGetDataDirectory, run, tryCatch, andThen,
    observe, call, pure. cbn [fst snd host calls].
  destruct (runCommand _ _ (host s)) as [[output|reason] d1]; cbn [fst snd calls].
  - exists (statusOfOutput output). repeat split. apply statusOfOutput_never_warning.
  - exists error. repeat split. discriminate.
Qed.

(** ** The data directory *)

Lemma keeps_pure {A} (key : StoreKeys) (a : A) : keeps key (pure (D := D) a).
Proof. now intros s. Qed.

Lemma keeps_observe {A} (key : StoreKeys) (f : Desktop D -> A) : keeps key (observe f).
Proof. now intros s. Qed.

Lemma keeps_call {A} (key : StoreKeys) (c : HostCall) (f : D -> Settled A * D) :
  keeps key (call c f).
Proof. intros s. unfold call. now destruct (f (host s)) as [[a|reason] d]. Qed.

Lemma keeps_callTotal {A} (key : StoreKeys) (c : HostCall) (f : D -> A * D) :
  keeps key (callTotal c f).
Proof. intros s. unfold callTotal. now destruct (f (host s)). Qed.

Lemma keeps_readSure {A} (key : StoreKeys) (f : D -> Settled A) : keeps key (readSure f).
Proof. intros s. unfold readSure. now destruct (f (host s)). Qed.

Lemma keeps_store_set (key other : StoreKeys) (value : list N) :
  other <> key -> keeps other (store_set (D := D) key value).
Proof.
  intros Hne s. unfold store_set. cbn [snd store].
  now destruct (decide (other = key)).
Qed.

Lemma keeps_andThen {A B} (key : StoreKeys) (m : Task D A) (k : A -> Task D B) :
  keeps key m -> (forall a, keeps key (k a)) -> keeps key (andThen m k).
Proof.
  intros Hm Hk s. unfold andThen. specialize (Hm s).
  destruct (m s) as [[a|e] s1]; cbn [snd] in *; [|exact Hm].
  now rewrite Hk.
Qed.

Lemma keeps_tryCatch {A} (key : StoreKeys) (m : Task D A) (handler : Exception -> Task D A) :
  keeps key m -> (forall e, keeps key (handler e)) -> keeps key (tryCatch m handler).
Proof.
  intros Hm Hh s. unfold tryCatch. specialize (Hm s).
  destruct (m s) as [[a|e] s1]; cbn [snd] in *; [exact Hm|].
  now rewrite Hh.
Qed.

Lemma keeps_mapTask {A B} (key : StoreKeys) (f : A -> Task D B) (l : list A) :
  (forall x, keeps key (f x)) -> keeps key (mapTask f l).
Proof.
  intros Hf. induction l as [|x l IH]; [apply keeps_pure|].
  cbn [mapTask]. apply keeps_andThen; [apply Hf|]. intros y.
  apply keeps_andThen; [exact IH|]. intros ys. apply keeps_pure.
Qed.

Lemma keeps_run (key : StoreKeys) (line : string) (directory : list N) :
  keeps key (run line directory).
Proof. apply keeps_call. Qed.

Lemma keeps_generateRandomKey (key : StoreKeys) (length : nat) :
  keeps key (generateRandomKey length).
Proof.
  apply keeps_andThen; [apply keeps_callTotal|]. intros bytes. apply keeps_pure.
Qed.

Lemma keeps_updateEnvLine (key : StoreKeys) (dbPassword line : list N) :
  keeps key (updateEnvLine dbPassword line).
Proof.
  unfold updateEnvLine. destruct (keyMatch line) as [name|]; [|apply keeps_pure].
  destruct (bool_decide (name ∈ secretKeys)); [|apply keeps_pure].
  destruct (bool_decide (name = units "DB_PASSWORD")); [apply keeps_pure|].
  cbv zeta. apply keeps_andThen; [apply keeps_generateRandomKey|].
  intros randomKey. apply keeps_pure.
Qed.

Ltac keeps_step :=
  lazymatch goal with
  | |- keeps _ (andThen _ _) => apply keeps_andThen; [|intros ?]
  | |- keeps _ (tryCatch _ _) => apply keeps_tryCatch; [|intros ?]
  | |- keeps _ (pure _) => apply keeps_pure
  | |- keeps _ (observe _) => apply keeps_observe
  | |- keeps _ (run _ _) => apply keeps_run
  | |- keeps _ (call _ _) => apply keeps_call
  | |- keeps _ (callTotal _ _) => apply keeps_callTotal
  | |- keeps _ (readSure _) => apply keeps_readSure
  | |- keeps _ (generateRandomKey _) => apply keeps_generateRandomKey
  | |- keeps _ (mapTask _ _) => apply keeps_mapTask; intros ?
  | |- keeps _ (updateEnvLine _ _) => apply keeps_updateEnvLine
  | |- keeps _ (store_set _ _) => apply keeps_store_set; discriminate
  | |- keeps _ (let _ := _ in _) => cbv zeta
  end.

Ltac keeps_steps := repeat keeps_step.

(** No method of the class writes the store key that
    [desktopServerGetDataDirectory] reads: whatever a method does and
    however it ends, [desktopServerGetDataDirectory] answers afterwards
    what it answered before.  This holds of
    [desktopServerChangeDataDirectory] too, which stores the chosen path
    under [FileBackupsLocation]. *)
Theorem data_directory_never_written :
  (forall (A : Type) (m : Task D A) (s : Desktop D),
     keeps DesktopServerDataLocation m ->
     fst (desktopServerGetDataDirectory (snd (m s))) = fst (desktopServerGetDataDirectory s)) /\
  keeps DesktopServerDataLocation desktopServerChangeDataDirectory /\
  keeps DesktopServerDataLocation desktopServerOpenDataDirectory /\
  keeps DesktopServerDataLocation desktopServerStop /\
  keeps DesktopServerDataLocation desktopServerRestart /\
  keeps DesktopServerDataLocation desktopServerStart /\
  keeps DesktopServerDataLocation desktopServerStatus /\
  keeps DesktopServerDataLocation desktopServerInstall.
Proof.
  split.
  { intros A m s Hkeeps. unfold desktopServerGetDataDirectory, observe. cbn [fst].
    now rewrite Hkeeps. }
  repeat apply conj.
  - unfold desktopServerChangeDataDirectory.
    apply keeps_andThen; [apply keeps_call|]. intros [[|c path]|]; try apply keeps_pure.
    cbv zeta. apply keeps_andThen; [apply keeps_observe|]. intros oldPath.
    apply keeps_andThen; [|intros ?; apply keeps_pure].
    unfold transferDataToNewLocation. destruct (truthyString (Some oldPath)); keeps_steps.
  - unfold desktopServerOpenDataDirectory, desktopServerGetDataDirectory. keeps_steps.
  - unfold desktopServerStop, desktopServerGetDataDirectory. keeps_steps.
  - unfold desktopServerRestart, desktopServerGetDataDirectory. keeps_steps.
  - unfold desktopServerStart, desktopServerGetDataDirectory. keeps_steps.
  - unfold desktopServerStatus, desktopServerGetDataDirectory. keeps_steps.
  - unfold desktopServerInstall, desktopServerGetDataDirectory.
    apply keeps_andThen; [apply keeps_observe|]. intros notesDir.
    apply keeps_andThen; [apply keeps_observe|]. intros present.
    apply keeps_andThen; [destruct (negb present); keeps_steps|]. intros _.
    keeps_steps.
Qed.

(** [desktopServerChangeDataDirectory], once the directory picker has
    answered.  No path, or an empty one: the answer is [undefined] and
    nothing is stored or moved.  A path: when the current data directory is
    not the empty string its contents are moved first, and only when the
    move resolved is the path stored, under [FileBackupsLocation], and
    returned; when the move rejects the store is as before. *)
Theorem desktopServerChangeDataDirectory_outcome (s : Desktop D)
    (chosen : option (list N)) (d1 : D) :
  openDirectoryPicker (host s) = (Resolved chosen, d1) ->
  let oldPath := match store s DesktopServerDataLocation with
                 | Some value => value
                 | None => getDefaultDataDirectory
                 end in
  (truthyString chosen = false ->
     desktopServerChangeDataDirectory s =
       (Return None, {| store := store s; host := d1; calls := calls s ++ [picked] |})) /\
  (forall newPath, chosen = Some newPath -> newPath <> [] ->
     (oldPath = [] ->
        exists s',
          desktopServerChangeDataDirectory s = (Return (Some newPath), s') /\
          store s' FileBackupsLocation = Some newPath /\
          host s' = d1 /\ calls s' = calls s ++ [picked]) /\
     (oldPath <> [] ->
        forall d2,
          (forall reason,
             moveDirContents oldPath newPath d1 = (Rejected reason, d2) ->
             desktopServerChangeDataDirectory s =
               (Throw (CollaboratorFailure reason),
                {| store := store s; host := d2;
                   calls := calls s ++ [picked; moved oldPath newPath] |})) /\
          (moveDirContents oldPath newPath d1 = (Resolved tt, d2) ->
           exists s',
             desktopServerChangeDataDirectory s = (Return (Some newPath), s') /\
             store s' FileBackupsLocation = Some newPath /\
             host s' = d2 /\ calls s' = calls s ++ [picked; moved oldPath newPath]))).
Proof.
  intros Hpick oldPath.
  unfold desktopServerChangeDataDirectory, desktopServerGetDataDirectory,
    transferDataToNewLocation, andThen, call, observe, pure, store_set.
  rewrite Hpick. split.
  - intros Hfalsy. destruct chosen as [[|c path]|]; [reflexivity | discriminate | reflexivity].
  - intros newPath -> Hpath. destruct newPath as [|c path]; [contradiction|].
    cbv beta zeta. cbn [store host calls]. fold oldPath. split.
    + intros Hold. rewrite Hold. cbn [truthyString store host calls].
      eexists. split; [reflexivity|]. cbn [store host calls].
      now destruct (decide (FileBackupsLocation = FileBackupsLocation)).
    + intros Hold d2. destruct oldPath as [|o old]; [contradiction|].
      cbn [truthyString store host calls]. split.
      * intros reason ->. cbn [store host calls]. now rewrite <- app_assoc.
      * intros ->. cbn [store host calls]. eexists. split; [reflexivity|].
        cbn [store host calls]. rewrite <- app_assoc.
        now destruct (decide (FileBackupsLocation = FileBackupsLocation)).
Qed.

(** ** The docker commands *)

(** [desktopServerRestart] and [desktopServerStart] run their two commands
    in the data directory, and the second, [docker compose up -d], only
    once the first has resolved: when [docker compose down], or [docker
    compose pull], fails, the failure is thrown and nothing else is run. *)
Theorem desktopServerRestart_and_Start :
  runsThenUp desktopServerRestart "docker compose down" /\
  runsThenUp desktopServerStart "docker compose pull".
Proof.
  split; intros s d1; cbv zeta;
    unfold desktopServerRestart, desktopServerStart, desktopServerGetDataDirectory, run,
      andThen, call, observe, pure; cbn [store host calls];
    (split;
     [ intros reason ->; reflexivity
     | intros output -> up d2 Hup; cbn [store host calls]; rewrite Hup;
       cbn [store host calls]; rewrite <- app_assoc; now destruct up ]).
Qed.

(** ** Random keys *)

Lemma hexDigit_isHexDigit (n : N) : (n < 16)%N -> isHexDigit (hexDigit n) = true.
Proof.
  intros Hn. unfold hexDigit, isHexDigit.
  destruct (N.ltb_spec n 10) as [Hsmall|Hlarge]; apply orb_true_iff; [left | right];
    apply andb_true_iff; split; apply N.leb_le; lia.
Qed.

Lemma isHexDigit_plain (c : N) :
  isHexDigit c = true -> isLineTerminator c = false /\ c <> 36%N.
Proof.
  unfold isHexDigit, isLineTerminator. intros Hc.
  apply orb_true_iff in Hc as [Hc|Hc]; apply andb_true_iff in Hc as [Hlow Hhigh];
    apply N.leb_le in Hlow, Hhigh; (split; [|lia]);
    apply bool_decide_eq_false; rewrite !elem_of_cons, elem_of_nil; lia.
Qed.

Lemma toHex_digits (bytes : list Byte.byte) :
  Forall (fun c => isHexDigit c = true) (toHex bytes) /\
  length (toHex bytes) = (2 * length bytes)%nat.
Proof.
  induction bytes as [|b bytes [IHdigits IHlength]]; [now split|].
  assert (Byte.to_N b < 256)%N as Hb by (destruct b; reflexivity).
  cbn [toHex flat_map app length]. fold (toHex bytes). split.
  - repeat constructor; [| |exact IHdigits]; apply hexDigit_isHexDigit.
    + apply N.Div0.div_lt_upper_bound. lia.
    + apply N.mod_lt. lia.
  - rewrite IHlength. lia.
Qed.

(** [generateRandomKey] draws its bytes in one call and returns two digits
    for each of them, all among [0-9a-f]: a key holds no [$] and no line
    terminator, so that it is taken as it is by a replacement pattern and
    stays on its line. *)
Theorem generateRandomKey_hex (length : nat) (s : Desktop D) :
  let bytes := fst (randomBytes length (host s)) in
  generateRandomKey length s =
    (Return (toHex bytes),
     {| store := store s; host := snd (randomBytes length (host s));
        calls := calls s ++ [drewRandomBytes length] |}) /\
  List.length (toHex bytes) = (2 * List.length bytes)%nat /\
  Forall (fun c => isHexDigit c = true) (toHex bytes) /\
  singleLine (toHex bytes) /\
  36%N ∉ toHex bytes.
Proof.
  cbv zeta. unfold generateRandomKey, andThen, callTotal, pure.
  destruct (randomBytes length (host s)) as [bytes d]. cbn [fst snd].
  destruct (toHex_digits bytes) as [Hdigits Hlength].
  repeat split; try assumption.
  - intros c Hc. rewrite Forall_forall in Hdigits. now apply isHexDigit_plain, Hdigits.
  - intros Hc. rewrite Forall_forall in Hdigits. now apply Hdigits, isHexDigit_plain in Hc.
Qed.

(** ** The lines of the [.env] file *)

Lemma isKeyChar_plain (c : N) :
  isKeyChar c = true -> isLineTerminator c = false /\ c <> 61%N.
Proof.
  unfold isKeyChar, isLineTerminator. intros Hc. split.
  - apply bool_decide_eq_false. rewrite !elem_of_cons, elem_of_nil.
    apply orb_true_iff in Hc as [Hc|Hc].
    + apply andb_true_iff in Hc as [Hlow Hhigh]. apply N.leb_le in Hlow, Hhigh. lia.
    + apply N.eqb_eq in Hc. lia.
  - apply orb_true_iff in Hc as [Hc|Hc].
    + apply andb_true_iff in Hc as [Hlow Hhigh]. apply N.leb_le in Hlow, Hhigh. lia.
    + apply N.eqb_eq in Hc. lia.
Qed.

Lemma keyPrefix_spec (s : list N) :
  s = fst (keyPrefix s) ++ snd (keyPrefix s) /\
  Forall (fun c => isKeyChar c = true) (fst (keyPrefix s)) /\
  (forall c rest, snd (keyPrefix s) = c :: rest -> isKeyChar c = false).
Proof.
  induction s as [|c s (Happ & Hkey & Hrest)]; [repeat split; [constructor | discriminate]|].
  cbn [keyPrefix]. destruct (isKeyChar c) eqn:Hc.
  - destruct (keyPrefix s) as [key rest]. cbn [fst snd] in *.
    repeat split; [now rewrite Happ at 1 | now constructor | exact Hrest].
  - cbn [fst snd]. repeat split; [constructor|]. now intros ? ? [= <- <-].
Qed.

Lemma keyPrefix_app (key rest : list N) :
  Forall (fun c => isKeyChar c = true) key ->
  (forall c rest', rest = c :: rest' -> isKeyChar c = false) ->
  keyPrefix (key ++ rest) = (key, rest).
Proof.
  intros Hkey Hrest. induction Hkey as [|c key Hc Hkey IH]; cbn [app keyPrefix].
  - destruct rest as [|c rest']; [reflexivity|]. cbn [keyPrefix]. now rewrite (Hrest c rest').
  - now rewrite Hc, IH.
Qed.

(** The regular expression of the [.env] lines, by what it matches. *)
Lemma keyMatch_Some (line key : list N) :
  keyMatch line = Some key <->
  exists value,
    line = key ++ 61%N :: value /\ key <> [] /\
    Forall (fun c => isKeyChar c = true) key /\ singleLine value.
Proof.
  unfold keyMatch. split.
  - destruct (keyPrefix_spec line) as (Happ & Hkey & _).
    destruct (keyPrefix line) as [[|c name] [|eq value]]; cbn [fst snd] in *; try discriminate.
    destruct (eq =? 61)%N eqn:Heq; [|discriminate]. cbn [andb].
    destruct (forallb _ value) eqn:Hvalue; [|discriminate]. intros [= <-].
    apply N.eqb_eq in Heq as ->. exists value. repeat split; try assumption; [discriminate|].
    intros v Hv. rewrite forallb_forall in Hvalue.
    apply list_elem_of_In, Hvalue in Hv. now apply negb_true_iff in Hv.
  - intros (value & -> & Hne & Hkey & Hvalue).
    rewrite keyPrefix_app; [|exact Hkey|].
    + destruct key as [|c name]; [contradiction|]. cbn [N.eqb Pos.eqb andb].
      assert (forallb (fun v => negb (isLineTerminator v)) value = true) as ->; [|reflexivity].
      apply forallb_forall. intros v Hv%list_elem_of_In. apply negb_true_iff. now apply Hvalue.
    + intros c rest' [= <- <-]. reflexivity.
Qed.

Lemma keyMatch_line_terminator (line : list N) (c : N) :
  c ∈ line -> isLineTerminator c = true -> keyMatch line = None.
Proof.
  intros Hin Hc. destruct (keyMatch line) as [key|] eqn:Hmatch; [|reflexivity].
  apply keyMatch_Some in Hmatch as (value & -> & _ & Hkey & Hvalue).
  rewrite elem_of_app, elem_of_cons in Hin. destruct Hin as [Hin|[->|Hin]].
  - rewrite Forall_forall in Hkey. apply Hkey, isKeyChar_plain in Hin as [Hin _]. congruence.
  - discriminate.
  - apply Hvalue in Hin. congruence.
Qed.

Lemma updateEnvLine_unmatched (dbPassword line : list N) (s : Desktop D) :
  (forall key, keyMatch line = Some key -> key ∉ secretKeys) ->
  updateEnvLine dbPassword line s = (Return line, s).
Proof.
  intros Hother. unfold updateEnvLine.
  destruct (keyMatch line) as [key|]; [|reflexivity].
  specialize (Hother key eq_refl). now rewrite bool_decide_eq_false_2.
Qed.

(** A line of the [.env] file is returned as it is, and no random key is
    drawn for it, unless it matches with one of the four secret keys.  In
    particular a line that holds a line terminator, such as the carriage
    return that ends each line of a file with CRLF line ends, is never
    rewritten, and neither is a line that starts with something else than
    [A-Z] or [_], such as an indented or commented-out setting. *)
Theorem updateEnvLine_kept (dbPassword line : list N) (s : Desktop D) :
  ((forall key, keyMatch line = Some key -> key ∉ secretKeys) ->
     updateEnvLine dbPassword line s = (Return line, s)) /\
  (forall c, c ∈ line -> isLineTerminator c = true -> keyMatch line = None) /\
  (forall c rest, line = c :: rest -> isKeyChar c = false -> keyMatch line = None).
Proof.
  split; [|split].
  - apply updateEnvLine_unmatched.
  - apply keyMatch_line_terminator.
  - intros c rest -> Hc. unfold keyMatch. cbn [keyPrefix]. now rewrite Hc.
Qed.

(** A line [KEY=value] with one of the four secret keys loses its value,
    whatever it was: [DB_PASSWORD] gets the database password and no random
    key is drawn; each of the other three gets the hexadecimal form of 32
    random bytes drawn for that line alone. *)
Theorem updateEnvLine_secret (dbPassword key value : list N) (s : Desktop D) :
  key ∈ secretKeys -> singleLine value ->
  let line := key ++ units "=" ++ value in
  (key = units "DB_PASSWORD" ->
     updateEnvLine dbPassword line s = (Return (units "DB_PASSWORD=" ++ dbPassword), s)) /\
  (key <> units "DB_PASSWORD" ->
     updateEnvLine dbPassword line s =
       (Return (key ++ units "=" ++ toHex (fst (randomBytes 32 (host s)))),
        {| store := store s; host := snd (randomBytes 32 (host s));
           calls := calls s ++ [drewRandomBytes 32] |})).
Proof.
  intros Hkey Hvalue line.
  assert (keyMatch line = Some key) as Hmatch.
  { apply keyMatch_Some. exists value. split; [reflexivity|]. split; [|split; [|exact Hvalue]].
    - intros ->. unfold secretKeys in Hkey. rewrite !elem_of_cons, elem_of_nil in Hkey.
      now destruct Hkey as [?|[?|[?|[?|[]]]]].
    - unfold secretKeys in Hkey. rewrite !elem_of_cons, elem_of_nil in Hkey.
      destruct Hkey as [->|[->|[->|[->|[]]]]];
        apply Forall_forall; intros c Hc%list_elem_of_In;
        revert c Hc; apply forallb_forall; reflexivity. }
  unfold updateEnvLine. rewrite Hmatch, bool_decide_eq_true_2 by exact Hkey. split.
  - intros ->. now rewrite bool_decide_eq_true_2.
  - intros Hother. rewrite bool_decide_eq_false_2 by exact Hother. cbv zeta.
    unfold generateRandomKey, andThen, callTotal, pure.
    now destruct (randomBytes 32 (host s)).
Qed.

Lemma mapTask_kept (dbPassword : list N) (lines : list (list N)) (s : Desktop D) :
  (forall line, line ∈ lines -> forall key, keyMatch line = Some key -> key ∉ secretKeys) ->
  mapTask (updateEnvLine dbPassword) lines s = (Return lines, s).
Proof.
  induction lines as [|line lines IH]; intros Hkept; [reflexivity|].
  cbn [mapTask]. unfold andThen at 1.
  rewrite updateEnvLine_unmatched by (apply Hkept, list_elem_of_here).
  unfold andThen at 1. rewrite IH; [reflexivity|].
  intros other Hin. now apply Hkept, list_elem_of_further.
Qed.

(** An [.env] file none of whose lines matches with one of the four secret
    keys is written back as it was read, code unit for code unit, and no
    random key is drawn: mapping the lines changes none, and joining the
    lines of a text split at its line feeds gives the text back. *)
Theorem env_file_without_secrets (dbPassword contents : list N) (s : Desktop D) :
  (forall line, line ∈ split 10 contents ->
     forall key, keyMatch line = Some key -> key ∉ secretKeys) ->
  (let* updatedLines := mapTask (updateEnvLine dbPassword) (split 10 contents) in
   pure (join 10 updatedLines)) s = (Return contents, s).
Proof.
  intros Hkept. unfold andThen. rewrite mapTask_kept by exact Hkept.
  unfold pure. now rewrite join_split.
Qed.

(** ** The passwords of [docker-compose.yml] *)

Lemma replaceFrom_passed (dbPassword : list N) (inValue : bool) (s : list N) :
  forall matched,
    replaceFrom dbPassword matched inValue s = replaceFrom dbPassword 0 inValue (drop matched s).
Proof.
  induction s as [|c s IH]; intros [|matched]; try reflexivity.
  cbn [replaceFrom drop]. apply IH.
Qed.

Lemma mysqlPasswordPrefix_other (c : N) (s : list N) :
  c <> 77%N -> mysqlPasswordPrefix (c :: s) = None.
Proof.
  intros Hc. unfold mysqlPasswordPrefix, startsWith.
  rewrite !bool_decide_eq_false_2; [reflexivity| |]; intros [= Heq _]; contradiction.
Qed.

Lemma mysqlPasswordPrefix_root (s : list N) :
  mysqlPasswordPrefix (units "MYSQL_ROOT_PASSWORD=" ++ s) = Some (units "MYSQL_ROOT_PASSWORD=").
Proof.
  unfold mysqlPasswordPrefix, startsWith.
  now rewrite bool_decide_eq_true_2 by apply take_app_length.
Qed.

Lemma mysqlPasswordPrefix_plain (s : list N) :
  mysqlPasswordPrefix (units "MYSQL_PASSWORD=" ++ s) = Some (units "MYSQL_PASSWORD=").
Proof.
  unfold mysqlPasswordPrefix, startsWith.
  rewrite bool_decide_eq_false_2.
  - now rewrite bool_decide_eq_true_2 by apply take_app_length.
  - intros Heq. apply (f_equal (fun l => l !! 6%nat)) in Heq. discriminate.
Qed.

Lemma replaceFrom_value (dbPassword value rest : list N) :
  singleLine value ->
  rest = [] \/ (exists c rest', rest = c :: rest' /\ isLineTerminator c = true) ->
  replaceFrom dbPassword 0 true (value ++ rest) = replaceFrom dbPassword 0 false rest.
Proof.
  intros Hvalue Hrest. induction value as [|v value IH]; cbn [app].
  - destruct Hrest as [->|(c & rest' & -> & Hc)]; [reflexivity|].
    cbn [replaceFrom]. rewrite Hc, mysqlPasswordPrefix_other; [reflexivity|].
    intros ->. discriminate.
  - cbn [replaceFrom]. rewrite (Hvalue v) by apply list_elem_of_here.
    apply IH. intros c Hc. now apply Hvalue, list_elem_of_further.
Qed.

(** [replaceMysqlPasswords] by the text it is given.  A code unit at which
    the expression does not match is copied.  Where the text reads
    [MYSQL_PASSWORD=] or [MYSQL_ROOT_PASSWORD=], what follows up to the end
    of the line, whatever it is, gives way to the new password, and the
    replacement goes on with the rest; both occurrences get the same
    password.  A text in which the expression matches nowhere is
    unchanged. *)
Theorem replaceMysqlPasswords_spec (dbPassword : list N) :
  (forall c s,
     mysqlPasswordPrefix (c :: s) = None ->
     replaceMysqlPasswords dbPassword (c :: s) = c :: replaceMysqlPasswords dbPassword s) /\
  (forall prefix value rest,
     prefix = units "MYSQL_PASSWORD=" \/ prefix = units "MYSQL_ROOT_PASSWORD=" ->
     singleLine value ->
     rest = [] \/ (exists c rest', rest = c :: rest' /\ isLineTerminator c = true) ->
     replaceMysqlPasswords dbPassword (prefix ++ value ++ rest) =
       prefix ++ dbPassword ++ replaceMysqlPasswords dbPassword rest) /\
  (forall contents,
     (forall n, mysqlPasswordPrefix (drop n contents) = None) ->
     replaceMysqlPasswords dbPassword contents = contents).
Proof.
  unfold replaceMysqlPasswords. split; [|split].
  - intros c s Hnone. cbn [replaceFrom]. now rewrite Hnone.
  - intros prefix value rest Hprefix Hvalue Hrest.
    assert (mysqlPasswordPrefix (prefix ++ value ++ rest) = Some prefix) as Hmatch.
    { destruct Hprefix as [-> | ->];
        [apply mysqlPasswordPrefix_plain | apply mysqlPasswordPrefix_root]. }
    assert (exists c tail, prefix = c :: tail) as (c & tail & Hcons).
    { destruct Hprefix as [-> | ->]; now eexists _, _. }
    rewrite Hcons in Hmatch |- *. rewrite <- app_comm_cons in Hmatch |- *.
    cbn [replaceFrom]. rewrite Hmatch.
    rewrite replaceFrom_passed.
    replace (length (c :: tail) - 1)%nat with (length tail) by (cbn [length]; lia).
    rewrite drop_app_length. rewrite replaceFrom_value by assumption.
    now rewrite <- app_comm_cons.
  - intros contents Hnone. induction contents as [|c contents IH]; [reflexivity|].
    pose proof (Hnone 0%nat) as Hhere. cbn [drop] in Hhere.
    cbn [replaceFrom]. rewrite Hhere. f_equal. apply IH.
    intros n. apply (Hnone (S n)).
Qed.

(** ** [desktopServerInstall] *)

Lemma updateEnvLine_cases (dbPassword line : list N) (s : Desktop D) :
  (updateEnvLine dbPassword line s = (Return line, s) /\
   forall key, keyMatch line = Some key -> key ∉ secretKeys) \/
  (updateEnvLine dbPassword line s = (Return (units "DB_PASSWORD=" ++ dbPassword), s) /\
   keyMatch line = Some (units "DB_PASSWORD")) \/
  (exists key bytes d1,
     keyMatch line = Some key /\
     key ∈ [units "AUTH_JWT_SECRET"; units "AUTH_SERVER_ENCRYPTION_SERVER_KEY";
            units "VALET_TOKEN_SECRET"] /\
     randomBytes 32 (host s) = (bytes, d1) /\
     updateEnvLine dbPassword line s =
       (Return (key ++ units "=" ++ toHex bytes),
        {| store := store s; host := d1; calls := calls s ++ [drewRandomBytes 32] |})).
Proof.
  unfold updateEnvLine. destruct (keyMatch line) as [key|] eqn:Hmatch.
  - destruct (bool_decide (key ∈ secretKeys)) eqn:Hsecret.
    + apply bool_decide_eq_true in Hsecret.
      destruct (bool_decide (key = units "DB_PASSWORD")) eqn:Hdb.
      * apply bool_decide_eq_true in Hdb as ->. right. left. now split.
      * apply bool_decide_eq_false in Hdb. right. right. cbv zeta.
        unfold generateRandomKey, andThen, callTotal, pure.
        destruct (randomBytes 32 (host s)) as [bytes d1].
        exists key, bytes, d1. repeat split.
        unfold secretKeys in Hsecret. rewrite !elem_of_cons, elem_of_nil in Hsecret.
        rewrite !elem_of_cons. tauto.
    + apply bool_decide_eq_false in Hsecret. left. split; [reflexivity|].
      intros key' Hkey'. congruence.
  - left. split; [reflexivity|]. intros key' Hkey'. congruence.
Qed.

Lemma mapTask_updateEnvLine (dbPassword : list N) (lines : list (list N)) :
  forall s : Desktop D,
  exists lines' s' extra,
    mapTask (updateEnvLine dbPassword) lines s = (Return lines', s') /\
    updatedLines dbPassword (host s) lines lines' (host s') /\
    store s' = store s /\
    calls s' = calls s ++ extra /\ written extra = [].
Proof.
  induction lines as [|line lines IH]; intros s.
  - exists [], s, []. repeat split; [constructor | now rewrite app_nil_r].
  - cbn [mapTask]. unfold andThen, pure.
    destruct (updateEnvLine_cases dbPassword line s)
      as [[Hline Hkept]|[[Hline Hpassword]|(key & bytes & d1 & Hmatch & Hkey & Hdraw & Hline)]];
      rewrite Hline.
    + destruct (IH s) as (lines' & s' & extra & Hlines & Hall & Hstore & Hcalls & Hextra).
      rewrite Hlines. exists (line :: lines'), s', extra.
      repeat split; [now constructor | exact Hstore | exact Hcalls | exact Hextra].
    + destruct (IH s) as (lines' & s' & extra & Hlines & Hall & Hstore & Hcalls & Hextra).
      rewrite Hlines. exists ((units "DB_PASSWORD=" ++ dbPassword) :: lines'), s', extra.
      repeat split; [now constructor | exact Hstore | exact Hcalls | exact Hextra].
    + destruct (IH {| store := store s; host := d1; calls := calls s ++ [drewRandomBytes 32] |})
        as (lines' & s' & extra & Hlines & Hall & Hstore & Hcalls & Hextra).
      rewrite Hlines. cbn [host store calls] in Hall, Hstore, Hcalls.
      exists ((key ++ units "=" ++ toHex bytes) :: lines'), s', (drewRandomBytes 32 :: extra).
      repeat split; [| exact Hstore | now rewrite Hcalls, <- app_assoc | exact Hextra].
      now apply (lineSecret _ _ d1).
Qed.

(** When [desktopServerInstall] returns, it has written two files and no
    other, in this order.  The first is [docker-compose.yml] of the data
    directory, with the text read from it after the download, in which the
    MySQL passwords are replaced by the hexadecimal text of 32 random bytes,
    drawn from the host once the file has been read.  The second is [.env]
    of the data directory, with the lines read from it after its download,
    each kept, given that same password for [DB_PASSWORD], or given the text
    of 32 random bytes of its own for one of the other three secrets.  The
    store is not written. *)
Theorem desktopServerInstall_files (s : Desktop D) :
  fst (desktopServerInstall s) = Return tt ->
  installed s (snd (desktopServerInstall s)).
Proof.
  intros Hreturn.
  destruct (desktopServerInstall s) as [result final] eqn:Hrun.
  cbn [fst snd] in *. subst result. revert Hrun.
  unfold installed, desktopServerInstall, desktopServerGetDataDirectory.
  set (notesDir := match store s DesktopServerDataLocation with
                   | Some value => value
                   | None => getDefaultDataDirectory
                   end).
  unfold andThen at 1. unfold observe at 1. fold notesDir.
  unfold andThen at 1. unfold observe at 1.
  assert (exists s0 made,
            (if negb (fs_existsSync notesDir (host s))
             then call (madeDirectory notesDir) (fs_mkdirSync notesDir) else pure tt) s
              = (made, s0) /\
            (made = Return tt ->
             (if fs_existsSync notesDir (host s) then host s0 = host s
              else fs_mkdirSync notesDir (host s) = (Resolved tt, host s0)) /\
             store s0 = store s /\
             exists extra0, calls s0 = calls s ++ extra0 /\ written extra0 = []))
    as (s0 & made & Hmade & Hprepared).
  { destruct (fs_existsSync notesDir (host s)); cbn [negb].
    - exists s, (Return tt). split; [reflexivity|]. intros _.
      repeat split. exists []. now rewrite app_nil_r.
    - unfold call. destruct (fs_mkdirSync notesDir (host s)) as [[[]|reason] d0];
        eexists _, _; (split; [reflexivity|]); [|discriminate].
      intros _. repeat split. now exists [madeDirectory notesDir]. }
  unfold andThen at 1. rewrite Hmade. destruct made as [[]|e]; [|discriminate].
  destruct (Hprepared eq_refl) as (Hdir & Hstore0 & extra0 & Hcalls0 & Hextra0).
  clear Hprepared Hmade.
  unfold generateRandomKey. unfold run, andThen, call, readSure, callTotal, pure.
  destruct (runCommand _ notesDir (host s0)) as [[o1|r1] d1] eqn:Hrun1; [|discriminate].
  cbn [host calls store].
  destruct (runCommand _ notesDir d1) as [[o2|r2] d2] eqn:Hrun2; [|discriminate].
  cbn [host calls store].
  destruct (runCommand _ notesDir d2) as [[o3|r3] d3] eqn:Hrun3; [|discriminate].
  cbn [host calls store].
  destruct (fs_readFileSync _ d3) as [compose|r4] eqn:Hcompose; [|discriminate].
  cbn [host calls store].
  destruct (randomBytes 32 d3) as [bytes d4] eqn:Hdraw.
  cbn [host calls store].
  match goal with
  | |- context [fs_writeFileSync ?file ?contents d4] =>
      destruct (fs_writeFileSync file contents d4) as [[[]|r5] d5] eqn:Hwrite1; [|discriminate]
  end.
  cbn [host calls store].
  destruct (runCommand _ notesDir d5) as [[o4|r6] d6] eqn:Hrun4; [|discriminate].
  cbn [host calls store].
  destruct (fs_readFileSync _ d6) as [env|r7] eqn:Henv; [|discriminate].
  cbn [host calls store].
  match goal with
  | |- context [mapTask ?f ?l ?st] =>
      destruct (mapTask_updateEnvLine (toHex bytes) l st)
        as (lines' & s7 & extra7 & Hlines & Hall & Hstore7 & Hcalls7 & Hextra7)
  end.
  fold (updateEnvLine (D := D)) in Hlines |- *.
  rewrite Hlines. cbn [host calls store] in Hall, Hstore7, Hcalls7 |- *.
  match goal with
  | |- context [fs_writeFileSync ?file ?contents (host s7)] =>
      destruct (fs_writeFileSync file contents (host s7)) as [[[]|r8] d8] eqn:Hwrite2;
        [|discriminate]
  end.
  intros [= <-]. cbn [calls host store].
  exists (host s0), d3, d4, d5, d6, (host s7), compose, env, bytes, lines'. eexists.
  split; [exact Hdir|].
  split; [cbn [resolveAll]; eauto 10|].
  split; [exact Hcompose|]. split; [exact Hdraw|]. split; [exact Hwrite1|].
  split; [cbn [resolveAll]; eauto|].
  split; [exact Henv|]. split; [exact Hall|]. split; [exact Hwrite2|].
  split; [now rewrite Hstore7|].
  split; [rewrite Hcalls7, Hcalls0; rewrite <- !app_assoc; reflexivity|].
  unfold written in *. rewrite !omap_app, Hextra0, Hextra7. reflexivity.
Qed.
End Host.
End LocalServiceManagerProperties.

(** ** Further runs of the service on the in-memory collaborators *)
Module FurtherScenarios.
Import InMemory InMemoryRest.

Lemma listings_NoDup : NoDup (uuid <$> getItems_VaultListing (world (service ∅ worldALocked))).
Proof. apply (bool_decide_unpack _). vm_compute. exact I. Defined.

(** A first pass over vault A, which lacks its keys, and vault B, which
    has them: one event for each, in name order. *)
Lemma recomputeAllVaultsLockingState_events_witness :
  NoDup (uuid <$> getItems_VaultListing (world (service ∅ worldALocked))) /\
  notified (snd (recomputeAllVaultsLockingState compareNames (service ∅ worldALocked))) =
    [(VaultLocked, vaultA); (VaultUnlocked, vaultB)].
Proof.
  split; [exact listings_NoDup|].
  rewrite (recomputeAllVaultsLockingState_events compareNames (service ∅ worldALocked)
             listings_NoDup).
  reflexivity.
Defined.

Lemma recomputeAllVaultsLockingState_idempotent_witness :
  NoDup (uuid <$> getItems_VaultListing (world (service ∅ worldALocked))) /\
  recomputeAllVaultsLockingState compareNames
      (snd (recomputeAllVaultsLockingState compareNames (service ∅ worldALocked))) =
    (Return tt, snd (recomputeAllVaultsLockingState compareNames (service ∅ worldALocked))).
Proof.
  split; [exact listings_NoDup|].
  exact (recomputeAllVaultsLockingState_idempotent compareNames (service ∅ worldALocked)
           listings_NoDup).
Defined.

Lemma getLockedvaults_after_recompute_witness :
  NoDup (uuid <$> getItems_VaultListing (world (service ∅ worldALocked))) /\
  getLockedvaults compareNames
    (snd (recomputeAllVaultsLockingState compareNames (service ∅ worldALocked))) = [vaultA].
Proof.
  split; [exact listings_NoDup|].
  rewrite (getLockedvaults_after_recompute compareNames (service ∅ worldALocked)
             listings_NoDup).
  reflexivity.
Defined.

(** Vault B is locked in the lock map; vault A lacks its keys. *)
Lemma locked_vault_guards_no_effect_witness :
  addItemToVault vaultB (note None) (service {[ "uuid-b" := true ]} worldALocked) =
    (Throw (Error "Attempting to add item to locked vault"),
     service {[ "uuid-b" := true ]} worldALocked) /\
  rotateVaultRootKey vaultA (service {[ "uuid-b" := true ]} worldALocked) =
    (Throw (Error "Cannot rotate root key of locked vault"),
     service {[ "uuid-b" := true ]} worldALocked).
Proof.
  destruct (locked_vault_guards_no_effect (service {[ "uuid-b" := true ]} worldALocked) vaultB)
    as [Hcache _].
  destruct (locked_vault_guards_no_effect (service {[ "uuid-b" := true ]} worldALocked) vaultA)
    as [_ Hkeys].
  split; [apply Hcache; reflexivity | apply Hkeys; reflexivity].
Defined.

(** The rotation of vault A, a personal vault, with both of its keys in
    the key store. *)
Lemma rotateVaultRootKey_outcome_witness :
  computeVaultLockState worldUnlocked vaultA = unlocked /\
  rotateVaultRootKey vaultA (service ∅ worldUnlocked) =
    (Return tt,
     {| lockMap := ∅; world := worldUnlocked;
        notified := [(VaultRootKeyRotated, vaultA)];
        journal := [call_RotateVaultRootKeyUseCase vaultA None None; call_sync] |}).
Proof.
  assert (computeVaultLockState worldUnlocked vaultA = unlocked) as Hkeys by reflexivity.
  split; [exact Hkeys|].
  destruct (rotateVaultRootKey_outcome (service ∅ worldUnlocked) vaultA Hkeys worldUnlocked)
    as [_ Hresolved].
  apply (Hresolved (eq_refl _) (Resolved tt) worldUnlocked). reflexivity.
Defined.



Lemma getItemVault_isItemInVault_witness :
  getItemVault worldUnlocked (note (Some "ksi-b")) = Some vaultB /\
  isItemInVault (note (Some "ksi-b")) = true.
Proof.
  assert (getItemVault worldUnlocked (note (Some "ksi-b")) = Some vaultB) as Hfound
    by reflexivity.
  split; [exact Hfound|].
  exact (getItemVault_isItemInVault worldUnlocked (note (Some "ksi-b")) vaultB Hfound).
Defined.
End FurtherScenarios.

(** ** LocalServiceManager run on the test host *)
Module LocalServiceManagerRuns.
Import LocalServiceManager LocalServiceManagerSpec LocalServiceManagerProperties.

Lemma no_line_feed (literal : string) :
  bool_decide (10%N ∉ units literal) = true -> 10%N ∉ units literal.
Proof. apply bool_decide_eq_true_1. Defined.

(** The heading of [docker compose ps] alone, no container existing. *)
Lemma statusOfOutput_single_line_witness :
  (10%N ∉ units "NAME IMAGE COMMAND SERVICE CREATED STATUS PORTS") /\
  statusOfOutput (units "NAME IMAGE COMMAND SERVICE CREATED STATUS PORTS") = on.
Proof.
  assert (10%N ∉ units "NAME IMAGE COMMAND SERVICE CREATED STATUS PORTS") as Hline
    by (apply no_line_feed; reflexivity).
  split; [exact Hline|].
  exact (proj2 (statusOfOutput_single_line _ Hline)).
Defined.

Lemma statusOfOutput_ignores_first_line_witness :
  (10%N ∉ units "NAME COMMAND SERVICE STATUS PORTS") /\ (10%N ∉ units "anything") /\
  statusOfOutput (units "NAME COMMAND SERVICE STATUS PORTS" ++ 10%N :: units "db sh db exited 3306")
    = statusOfOutput (units "anything" ++ 10%N :: units "db sh db exited 3306").
Proof.
  assert (10%N ∉ units "NAME COMMAND SERVICE STATUS PORTS") as Hfirst
    by (apply no_line_feed; reflexivity).
  assert (10%N ∉ units "anything") as Hsecond by (apply no_line_feed; reflexivity).
  split; [exact Hfirst|]. split; [exact Hsecond|].
  exact (statusOfOutput_ignores_first_line _ _ _ Hfirst Hsecond).
Defined.

(** The picker answers [/new]; nothing is persisted, so that the contents
    of the default directory are moved. *)
Lemma desktopServerChangeDataDirectory_outcome_witness :
  let s := desktop None (hostWith (Resolved []) (Some (units "/new"))) in
  fst (desktopServerChangeDataDirectory s) = Return (Some (units "/new")) /\
  store (snd (desktopServerChangeDataDirectory s)) FileBackupsLocation = Some (units "/new") /\
  calls (snd (desktopServerChangeDataDirectory s)) =
    [picked; moved (units "/home/user/Documents/notes") (units "/new")].
Proof.
  cbv zeta.
  assert (openDirectoryPicker
            (host (desktop None (hostWith (Resolved []) (Some (units "/new"))))) =
          (Resolved (Some (units "/new")), hostWith (Resolved []) (Some (units "/new"))))
    as Hpick by reflexivity.
  destruct (desktopServerChangeDataDirectory_outcome _ _ _ Hpick) as [_ Hchosen].
  destruct (Hchosen (units "/new") (eq_refl _)) as [_ Hmove]; [discriminate|].
  destruct (Hmove ltac:(discriminate) (hostWith (Resolved []) (Some (units "/new"))))
    as [_ Hmoved].
  destruct Hmoved as (s' & Hrun & Hstore & _ & Hcalls); [reflexivity|].
  rewrite Hrun. cbn [fst snd]. split; [reflexivity|]. split; [exact Hstore | exact Hcalls].
Defined.

(** A restart whose [docker compose down] fails. *)
Lemma desktopServerRestart_and_Start_witness :
  let s := desktop None (hostWith (Rejected "docker is not running") None) in
  desktopServerRestart s =
    (Throw (CollaboratorFailure "docker is not running"),
     {| store := store s; host := host s;
        calls := [ran (CreateCommand (units "docker compose down"))
                      (units "/home/user/Documents/notes")] |}).
Proof.
  cbv zeta.
  destruct desktopServerRestart_and_Start as [Hrestart _].
  destruct (Hrestart (desktop None (hostWith (Rejected "docker is not running") None))
              (hostWith (Rejected "docker is not running") None)) as [Hfailed _].
  apply (Hfailed "docker is not running"). reflexivity.
Defined.

(** A line of a file with CRLF line ends, and a commented-out line. *)
Lemma updateEnvLine_kept_witness :
  keyMatch (units "DB_PASSWORD=changeme" ++ [13%N]) = None /\
  keyMatch (units "# DB_PASSWORD=changeme") = None /\
  updateEnvLine (units "secret") (units "DB_PASSWORD=changeme" ++ [13%N])
      (desktop None (hostWith (Resolved []) None)) =
    (Return (units "DB_PASSWORD=changeme" ++ [13%N]), desktop None (hostWith (Resolved []) None)).
Proof.
  destruct (updateEnvLine_kept (units "secret") (units "DB_PASSWORD=changeme" ++ [13%N])
              (desktop None (hostWith (Resolved []) None))) as (Hkept & Hterminator & _).
  destruct (updateEnvLine_kept (units "secret") (units "# DB_PASSWORD=changeme")
              (desktop None (hostWith (Resolved []) None))) as (_ & _ & Hstart).
  assert (keyMatch (units "DB_PASSWORD=changeme" ++ [13%N]) = None) as Hnone.
  { apply (Hterminator 13%N); [|reflexivity].
    apply elem_of_app. right. apply list_elem_of_here. }
  split; [exact Hnone|]. split.
  - apply (Hstart 35%N (units " DB_PASSWORD=changeme")); reflexivity.
  - apply Hkept. intros key Hkey. rewrite Hnone in Hkey. discriminate.
Defined.

Lemma singleLine_units (literal : string) :
  forallb (fun c => negb (isLineTerminator c)) (units literal) = true ->
  singleLine (units literal).
Proof.
  intros Hall c Hc%list_elem_of_In. rewrite forallb_forall in Hall.
  apply negb_true_iff. now apply Hall.
Defined.

Lemma updateEnvLine_secret_witness :
  let s := desktop None (hostWith (Resolved []) None) in
  updateEnvLine (units "0a1b") (units "DB_PASSWORD=changeme") s
    = (Return (units "DB_PASSWORD=0a1b"), s) /\
  fst (updateEnvLine (units "0a1b") (units "AUTH_JWT_SECRET=") s)
    = Return (units "AUTH_JWT_SECRET=abababababababababababababababababababababababababababababababab").
Proof.
  cbv zeta. split.
  - assert (units "DB_PASSWORD" ∈ secretKeys) as Hkey
      by (apply (bool_decide_unpack _); vm_compute; exact I).
    destruct (updateEnvLine_secret (units "0a1b") (units "DB_PASSWORD") (units "changeme")
                (desktop None (hostWith (Resolved []) None)) Hkey
                (singleLine_units "changeme" (eq_refl _))) as [Hpassword _].
    apply Hpassword. reflexivity.
  - assert (units "AUTH_JWT_SECRET" ∈ secretKeys) as Hkey
      by (apply (bool_decide_unpack _); vm_compute; exact I).
    destruct (updateEnvLine_secret (units "0a1b") (units "AUTH_JWT_SECRET") (units "")
                (desktop None (hostWith (Resolved []) None)) Hkey
                (singleLine_units "" (eq_refl _))) as [_ Hsecret].
    cbv zeta in Hsecret.
    assert (units "AUTH_JWT_SECRET" <> units "DB_PASSWORD") as Hother by discriminate.
    apply Hsecret in Hother.
    change (units "AUTH_JWT_SECRET" ++ units "=" ++ units "")
      with (units "AUTH_JWT_SECRET=") in Hother.
    rewrite Hother. reflexivity.
Defined.

Lemma env_file_without_secrets_witness :
  let contents := linesOf ["LOG_LEVEL=info"; "# DB_PASSWORD=x"; ""] in
  let s := desktop None (hostWith (Resolved []) None) in
  (let* updatedLines := mapTask (updateEnvLine (units "0a1b")) (split 10 contents) in
   pure (join 10 updatedLines)) s = (Return contents, s).
Proof.
  cbv zeta. apply env_file_without_secrets.
  intros line Hline key Hkey.
  change (split 10 (linesOf ["LOG_LEVEL=info"; "# DB_PASSWORD=x"; ""]))
    with [units "LOG_LEVEL=info"; units "# DB_PASSWORD=x"; units ""] in Hline.
  rewrite !elem_of_cons, elem_of_nil in Hline.
  destruct Hline as [->|[->|[->|[]]]]; vm_compute in Hkey;
    try discriminate.
  injection Hkey as <-. apply (bool_decide_unpack _). vm_compute. exact I.
Defined.

Lemma replaceMysqlPasswords_spec_witness :
  replaceMysqlPasswords (units "0a1b")
      (units "MYSQL_ROOT_PASSWORD=" ++ units "changeme" ++ 10%N :: units "MYSQL_USER=notes")
    = units "MYSQL_ROOT_PASSWORD=" ++ units "0a1b" ++
      replaceMysqlPasswords (units "0a1b") (10%N :: units "MYSQL_USER=notes").
Proof.
  destruct (replaceMysqlPasswords_spec (units "0a1b")) as (_ & Hmatch & _).
  apply Hmatch.
  - now right.
  - apply singleLine_units. reflexivity.
  - right. now eexists _, _.
Defined.

(** An installation into the default directory, with the sample files of
    the test host, whose random bytes all are [ab]: the two files written
    carry the same database password, 64 hexadecimal digits long, the other
    secret of the sample a key of that length too. *)
Lemma desktopServerInstall_files_witness :
  let s := desktop None (hostWith (Resolved []) None) in
  let key := "abababababababababababababababababababababababababababababababab" in
  fst (desktopServerInstall s) = Return tt /\
  installed s (snd (desktopServerInstall s)) /\
  written (calls (snd (desktopServerInstall s))) =
    [(units "/home/user/Documents/notes/docker-compose.yml",
      linesOf ["services:"; "  db:"; "    environment:";
               String.append "      - MYSQL_ROOT_PASSWORD=" key;
               String.append "      - MYSQL_PASSWORD=" key;
               "      - MYSQL_USER=std_notes_user"]);
     (units "/home/user/Documents/notes/.env",
      linesOf ["LOG_LEVEL=info"; String.append "DB_PASSWORD=" key;
               String.append "AUTH_JWT_SECRET=" key;
               "PUBLIC_FILES_SERVER_URL=http://localhost:3125"])].
Proof.
  cbv zeta.
  assert (fst (desktopServerInstall (desktop None (hostWith (Resolved []) None))) = Return tt)
    as Hreturn by (vm_compute; reflexivity).
  split; [exact Hreturn|].
  split; [|vm_compute; reflexivity].
  exact (desktopServerInstall_files (desktop None (hostWith (Resolved []) None)) Hreturn).
Defined.
End LocalServiceManagerRuns.
